(** * pubmed-cli: the affiliation classifier and the record extractor

    A shallow embedding of [pubmed_cli/__main__.py] and the properties of
    its extraction pipeline.

    Text.  A Python [str] is modelled by [string]; a character is the code
    point it carries, so the repertoire is U+0000..U+00FF (Latin-1).  Every
    operation the program applies to text ([str.lower], [str.strip], [in],
    the email pattern, [sorted], [join]) maps this repertoire to itself, and
    is transcribed for all 256 code points.

    XML.  [xml.etree.ElementTree] is a library: an XML text is identified
    with what [ET.fromstring] makes of it, an element tree or a
    [ParseError]; the three path forms the program uses are interpreted over
    the tree. *)

From Stdlib Require Import Ascii NArith.
From stdpp Require Import base list strings gmap sorting.


(** ** Text primitives *)

Module Text.

Definition code (c : ascii) : N := N_of_ascii c.

Definition between (lo hi : N) (c : ascii) : bool :=
  ((lo <=? code c) && (code c <=? hi))%N.

Definition is_ascii (c : ascii) : bool := (code c <? 128)%N.

(** Letters with a lower-case partner inside the repertoire:
    A-Z, U+00C0..U+00D6 and U+00D8..U+00DE. *)
Definition is_upper (c : ascii) : bool :=
  between 65 90 c || between 192 214 c || between 216 222 c.

(** a-z, U+00E0..U+00F6 and U+00F8..U+00FE. *)
Definition is_lower_paired (c : ascii) : bool :=
  between 97 122 c || between 224 246 c || between 248 254 c.

Definition lower_char (c : ascii) : ascii :=
  if is_upper c then ascii_of_N (code c + 32) else c.

(** [str.lower] *)
Fixpoint lower (s : string) : string :=
  match s with
  | "" => ""
  | String c s' => String (lower_char c) (lower s')
  end.

(** One character of [str.upper].  U+00DF upper-cases to the two letters
    SS; the upper-case forms of U+00B5 and U+00FF (U+039C, U+0178) lie
    outside the repertoire, which [None] records. *)
Definition upper_char (c : ascii) : option string :=
  if is_lower_paired c then Some (String (ascii_of_N (code c - 32)) "")
  else if (code c =? 223)%N then Some "SS"
  else if (code c =? 181)%N || (code c =? 255)%N then None
  else Some (String c "").

(** [str.upper] *)
Fixpoint upper (s : string) : option string :=
  match s with
  | "" => Some ""
  | String c s' =>
      u ← upper_char c; U ← upper s'; Some (u +:+ U)
  end.

(** Characters [str.strip] removes: U+0009..U+000D, U+001C..U+0020,
    U+0085 and U+00A0. *)
Definition is_space (c : ascii) : bool :=
  between 9 13 c || between 28 32 c || (code c =? 133)%N || (code c =? 160)%N.

Fixpoint lstrip (s : string) : string :=
  match s with
  | "" => ""
  | String c s' => if is_space c then lstrip s' else s
  end.

Fixpoint rstrip (s : string) : string :=
  match s with
  | "" => ""
  | String c s' =>
      match rstrip s' with
      | "" => if is_space c then "" else String c ""
      | r => String c r
      end
  end.

(** [str.strip] with no argument *)
Definition strip (s : string) : string := rstrip (lstrip s).

(** Python truth value of a [str] *)
Definition nonempty (s : string) : bool :=
  match s with "" => false | _ => true end.

(** [needle in hay] *)
Fixpoint contains (needle hay : string) : bool :=
  String.prefix needle hay
  || match hay with
     | "" => false
     | String _ hay' => contains needle hay'
     end.

Fixpoint all (p : ascii → bool) (s : string) : bool :=
  match s with
  | "" => true
  | String c s' => p c && all p s'
  end.

Definition first_char (s : string) : option ascii :=
  match s with "" => None | String c _ => Some c end.

Fixpoint last_char (s : string) : option ascii :=
  match s with
  | "" => None
  | String c "" => Some c
  | String _ s' => last_char s'
  end.

End Text.

Import Text.

(** ** Keyword classifier *)

Definition ACADEMIC_KEYWORDS : list string :=
  [ "university"; "college"; "institute"; "school of"; "department of";
    "faculty of"; "research center"; "centre for"; "hospital";
    "medical center"; "clinic" ].

Definition COMPANY_KEYWORDS : list string :=
  [ "inc"; "ltd"; "llc"; "gmbh"; "corporation"; "corp"; "pharma"; "biotech";
    "biotechnology"; "technologies"; "systems"; "bio"; "laboratories";
    "laboratory"; "sas"; "sa"; "nv"; "ab"; "co."; "ag" ].

Definition contains_keyword (text : string) (keywords : list string) : bool :=
  let lower := lower text in
  existsb (fun k => contains (Text.lower k) lower) keywords.

Definition isAcademic (text : string) : bool :=
  contains_keyword text ACADEMIC_KEYWORDS.

Definition isCompany (text : string) : bool :=
  contains_keyword text COMPANY_KEYWORDS.

(** ** The email pattern

    [EMAIL_REGEX] is a sequence of character classes, each taken once or
    repeated greedily at least [min] times; [re] explores the repetitions
    longest first and backtracks. *)

Inductive item :=
  | One (p : ascii → bool)
  | Rep (p : ascii → bool) (min : nat).

Definition is_alpha (c : ascii) : bool := between 65 90 c || between 97 122 c.
Definition is_digit (c : ascii) : bool := between 48 57 c.
Definition is_char (x c : ascii) : bool := bool_decide (c = x).

(** [[A-Za-z0-9._%+-]] *)
Definition local_class (c : ascii) : bool :=
  is_alpha c || is_digit c || is_char "." c || is_char "_" c
  || is_char "%" c || is_char "+" c || is_char "-" c.

(** [[A-Za-z0-9.-]] *)
Definition domain_class (c : ascii) : bool :=
  is_alpha c || is_digit c || is_char "." c || is_char "-" c.

(** [[A-Za-z0-9._%+-]+@[A-Za-z0-9.-]+\.[A-Za-z]{2,}] *)
Definition EMAIL_REGEX : list item :=
  [ Rep local_class 1; One (is_char "@"); Rep domain_class 1;
    One (is_char "."); Rep is_alpha 2 ].

Module Re.

(** A match of [p{min,}] followed by the continuation [k], at the head of
    [s]: the text matched, longest repetition first. *)
Fixpoint rep (p : ascii → bool) (k : string → option string)
    (min : nat) (s : string) : option string :=
  let stop := match min with O => k s | S _ => None end in
  match s with
  | String c s' =>
      if p c then
        match rep p k (pred min) s' with
        | Some m => Some (String c m)
        | None => stop
        end
      else stop
  | "" => stop
  end.

Definition one (p : ascii → bool) (k : string → option string)
    (s : string) : option string :=
  match s with
  | String c s' => if p c then String c <$> k s' else None
  | "" => None
  end.

(** [pattern.match(s)]: the match anchored at the head of [s]. *)
Fixpoint match_here (r : list item) (s : string) : option string :=
  match r with
  | [] => Some ""
  | One p :: r' => one p (match_here r') s
  | Rep p min :: r' => rep p (match_here r') min s
  end.

(** [pattern.search(s)] then [.group(0)]: start positions are tried from
    the left. *)
Fixpoint search (r : list item) (s : string) : option string :=
  match match_here r s with
  | Some m => Some m
  | None =>
      match s with
      | "" => None
      | String _ s' => search r s'
      end
  end.

(** The language of a pattern, independently of any search order. *)
Fixpoint lang (r : list item) (m : string) : Prop :=
  match r with
  | [] => m = ""
  | One p :: r' => ∃ c m', m = String c m' ∧ p c = true ∧ lang r' m'
  | Rep p min :: r' =>
      ∃ u m', m = u +:+ m' ∧ all p u = true ∧ (min ≤ String.length u)%nat ∧ lang r' m'
  end.

(** [m] occurs in [s] at offset [i]. *)
Definition occurs_at (s : string) (i : nat) (m : string) : Prop :=
  ∃ pre post, s = pre +:+ m +:+ post ∧ String.length pre = i.

End Re.

(** An email-shaped text: local part, [@], domain, [.], top-level label. *)
Definition email_shaped (m : string) : Prop := Re.lang EMAIL_REGEX m.

Definition extractEmail (text : string) : option string :=
  Re.search EMAIL_REGEX text.

(** ** Element trees *)

#[warnings="-register-all"]
Inductive Element :=
  Elem (tag : string) (text : option string) (children : list Element).

Definition tag (e : Element) : string := let 'Elem t _ _ := e in t.
Definition text (e : Element) : option string := let 'Elem _ x _ := e in x.
Definition children (e : Element) : list Element := let 'Elem _ _ cs := e in cs.

(** [Element.iter()]: the element and its descendants in document order. *)
Fixpoint iter (e : Element) : list Element :=
  match e with
  | Elem _ _ cs => e :: flat_map iter cs
  end.

Definition tagged (t : string) (e : Element) : bool := bool_decide (tag e = t).

(** The path forms in use: ["T"], [".//T"] and [".//A/T"]. *)
Inductive path :=
  | Child (t : string)
  | Desc (t : string)
  | DescChild (a t : string).

Definition findall (p : path) (e : Element) : list Element :=
  match p with
  | Child t => List.filter (tagged t) (children e)
  | Desc t => List.filter (tagged t) (flat_map iter (children e))
  | DescChild a t =>
      flat_map (fun x => List.filter (tagged t) (children x))
        (List.filter (tagged a) (flat_map iter (children e)))
  end.

Definition find (p : path) (e : Element) : option Element :=
  head (findall p e).

(** [findtext]: [None] when nothing matches, the empty string when the
    match has no text. *)
Definition findtext (p : path) (e : Element) : option string :=
  (fun x => default "" (text x)) <$> find p e.

(** Python truth value of an [Optional[str]] *)
Definition truthy (o : option string) : bool :=
  match o with Some s => nonempty s | None => false end.

(** [o or d] *)
Definition por (o : option string) (d : string) : string :=
  match o with
  | Some s => if nonempty s then s else d
  | None => d
  end.

(** ** Record extractor *)

(** One row of the report; the keys of the [record] dict in order. *)
Record Paper := {
  PubmedID : string;
  Title : string;
  PublicationDate : string;
  NonAcademicAuthors : string;
  CompanyAffiliations : string;
  CorrespondingEmail : string
}.

(** An entry of [authors_info]. *)
Record AuthorInfo := {
  name : string;
  affiliations : list string
}.

(** [sorted(set(xs))]: the set fixes no iteration order, the sort does. *)
Definition sorted_set (xs : list string) : list string :=
  merge_sort String.le (elements (list_to_set xs : gset string)).

(** [sep.join(xs)] *)
Definition join (sep : string) (xs : list string) : string :=
  String.concat sep xs.

(** Publication date heuristics *)
Definition pub_date (article : Element) : string :=
  match find (Desc "PubDate") article with
  | Some pubdate_node =>
      let year := findtext (Child "Year") pubdate_node in
      let medline := findtext (Child "MedlineDate") pubdate_node in
      let month := por (findtext (Child "Month") pubdate_node) "01" in
      let day := por (findtext (Child "Day") pubdate_node) "01" in
      if truthy year then default "" year +:+ "-" +:+ month +:+ "-" +:+ day
      else if truthy medline then default "" medline
      else ""
  | None => ""
  end.

(** The inner loop over [.//AffiliationInfo/Affiliation]. *)
Definition collect_affs (author : Element) : list string :=
  fold_left
    (fun affs aff =>
       if truthy (text aff) then affs ++ [strip (default "" (text aff))]
       else affs)
    (findall (DescChild "AffiliationInfo" "Affiliation") author) [].

Definition author_info (author : Element) : AuthorInfo :=
  let lastname := por (findtext (Child "LastName") author) "" in
  let forename := por (findtext (Child "ForeName") author) "" in
  {| name := strip (forename +:+ " " +:+ lastname);
     affiliations := collect_affs author |}.

Definition authors_info (article : Element) : list AuthorInfo :=
  fold_left (fun acc author => acc ++ [author_info author])
    (findall (Desc "Author") article) [].

(** The classification loop; the state is the pair of lists
    [(non_academic_authors, company_affiliations)]. *)
Definition classify_step (st : list string * list string) (a : AuthorInfo)
    : list string * list string :=
  let is_academic := existsb isAcademic (affiliations a) in
  let non_academic_authors :=
    if negb is_academic && nonempty (name a) then st.1 ++ [name a] else st.1 in
  let company_affiliations :=
    fold_left
      (fun acc aff => if isCompany aff then acc ++ [aff] else acc)
      (affiliations a) st.2 in
  (non_academic_authors, company_affiliations).

Definition classify (infos : list AuthorInfo) : list string * list string :=
  fold_left classify_step infos ([], []).

Definition non_academic_authors (infos : list AuthorInfo) : list string :=
  (classify infos).1.

Definition company_affiliations (infos : list AuthorInfo) : list string :=
  (classify infos).2.

Definition company_affiliations_unique (infos : list AuthorInfo) : list string :=
  sorted_set (company_affiliations infos).

(** The list behind the [Non-academicAuthor(s)] cell. *)
Definition non_academic_authors_unique (infos : list AuthorInfo) : list string :=
  match non_academic_authors infos with
  | [] => []
  | names => sorted_set names
  end.

(** The scan for the corresponding email: the inner loop stops at the first
    affiliation with a match, the outer one as soon as [email] is set. *)
Fixpoint scan_affiliations (affs : list string) : string :=
  match affs with
  | [] => ""
  | aff :: rest =>
      match Re.search EMAIL_REGEX aff with
      | Some m => m
      | None => scan_affiliations rest
      end
  end.

Fixpoint scan_authors (infos : list AuthorInfo) : string :=
  match infos with
  | [] => ""
  | a :: rest =>
      let email := scan_affiliations (affiliations a) in
      if nonempty email then email else scan_authors rest
  end.

Definition extract_article (article : Element) : Paper :=
  let pmid := por (findtext (Desc "PMID") article) "" in
  let title := por (findtext (Desc "ArticleTitle") article) "" in
  let infos := authors_info article in
  {| PubmedID := pmid;
     Title := title;
     PublicationDate := pub_date article;
     NonAcademicAuthors :=
       if bool_decide (non_academic_authors infos = []) then ""
       else join "; " (sorted_set (non_academic_authors infos));
     CompanyAffiliations := join "; " (company_affiliations_unique infos);
     CorrespondingEmail := scan_authors infos |}.

(** ** The run: exceptions and output *)

Inductive exn :=
  | HTTPError (msg : string)
  | ParseError (msg : string)
  | OtherError (msg : string).

(** [str(e)] *)
Definition message (e : exn) : string :=
  match e with HTTPError m | ParseError m | OtherError m => m end.

Inductive outcome (A : Type) :=
  | Raises (e : exn)
  | Returns (a : A).
Arguments Raises {A} e.
Arguments Returns {A} a.

(** What [ET.fromstring] makes of an XML text. *)
Inductive xml_text :=
  | NotWellFormed (msg : string)
  | WellFormed (root : Element).

(** Lines of [debug_print]; they embed Python reprs and are kept structured. *)
Inductive debug_info :=
  | CallingEsearch
  | EsearchResult (count : Z) (ids : list string)
  | CallingEfetch (pmids : list string)
  | ExtractedRecord (record : Paper).

Inductive event :=
  | Stderr (line : string)
  | Debug (what : debug_info)
  | TotalHits (total : Z) (pmids : list string)
  | CsvRows (filename : option string) (rows : list Paper)
  | Saved (records : nat) (filename : string).

(** A computation that prints and may raise. *)
Definition M (A : Type) : Type := list event * outcome A.

#[global] Instance M_ret : MRet M := fun A a => ([], Returns a).
#[global] Instance M_bind : MBind M := fun A B f m =>
  match m with
  | (out, Raises e) => (out, Raises e)
  | (out, Returns a) => let '(out', r) := f a in (out ++ out', r)
  end.

Definition emit (ev : event) : M unit := ([ev], Returns tt).
Definition raise {A} (e : exn) : M A := ([], Raises e).
Definition lift {A} (o : outcome A) : M A := ([], o).

Definition debug_print (what : debug_info) (enabled : bool) : M unit :=
  if enabled then emit (Debug what) else mret tt.

(** The Document Source and the output, as the run sees them: what the
    search request, the fetch request, [open(filename, "w")] and each write
    of the report come back with.  [write_reply dest i] is the exception
    that write [i] to the destination [dest] raises, if it raises one: write
    0 is [writeheader], write [i] the [writerow] of row [i]; the
    destination [None] is standard output. *)
Record World := {
  esearch_reply : outcome (list string * Z);
  efetch_reply : list string → outcome xml_text;
  open_reply : string → option exn;
  write_reply : option string → nat → option exn
}.

(** The parsed command line; [query], [retmax] and [api_key] only travel to
    the Document Source. *)
Record Args := {
  arg_debug : bool;
  arg_file : option string
}.

Definition esearch (w : World) (debug : bool) : M (list string * Z) :=
  debug_print CallingEsearch debug;;
  r ← lift (esearch_reply w);
  debug_print (EsearchResult r.2 r.1) debug;;
  mret r.

Definition efetch (w : World) (pmids : list string) (debug : bool) : M xml_text :=
  match pmids with
  | [] => mret (NotWellFormed "no element found: line 1, column 0")
  | _ =>
      debug_print (CallingEfetch pmids) debug;;
      lift (efetch_reply w pmids)
  end.

(** The loop over [.//PubmedArticle], appending to [results]. *)
Fixpoint extract_loop (debug : bool) (articles : list Element)
    (results : list Paper) : M (list Paper) :=
  match articles with
  | [] => mret results
  | article :: rest =>
      let record := extract_article article in
      debug_print (ExtractedRecord record) debug;;
      extract_loop debug rest (results ++ [record])
  end.

Definition extract_papers (xml : xml_text) (debug : bool) : M (list Paper) :=
  match xml with
  | NotWellFormed msg => raise (ParseError msg)
  | WellFormed root =>
      extract_loop debug (findall (Desc "PubmedArticle") root) []
  end.

(** The loop of [writer.writerow], row [i] being write [i]: the rows
    written, and the exception that stopped the loop if one did. *)
Fixpoint writerows (reply : nat → option exn) (i : nat)
    (papers written : list Paper) : list Paper * option exn :=
  match papers with
  | [] => (written, None)
  | p :: rest =>
      match reply i with
      | Some e => (written, Some e)
      | None => writerows reply (S i) rest (written ++ [p])
      end
  end.

(** [writer.writeheader()] and the loop, on an open destination.  The event
    [CsvRows dest rows] stands for the header and the rows that were
    written to [dest], all of them or those before the write that failed. *)
Definition write_report (w : World) (dest : option string)
    (papers : list Paper) : M unit :=
  match write_reply w dest 0 with
  | Some e => raise e
  | None =>
      let '(written, stopped) := writerows (write_reply w dest) 1 papers [] in
      emit (CsvRows dest written);;
      match stopped with
      | Some e => raise e
      | None => mret tt
      end
  end.

Definition output_csv (w : World) (papers : list Paper)
    (filename : option string) : M unit :=
  match filename with
  | Some f =>
      if nonempty f then
        match open_reply w f with
        | Some e => raise e
        | None =>
            write_report w (Some f) papers;;
            emit (Saved (length papers) f)
        end
      else write_report w None papers
  | None => write_report w None papers
  end.

Definition main_body (w : World) (args : Args) : M unit :=
  r ← esearch w (arg_debug args);
  let '(pmids, total) := r in
  match pmids with
  | [] => emit (Stderr "No papers found for the query.")
  | _ =>
      (if arg_debug args then emit (TotalHits total pmids) else mret tt);;
      xml_data ← efetch w pmids (arg_debug args);
      papers ← extract_papers xml_data (arg_debug args);
      output_csv w papers (arg_file args)
  end.

(** The two handlers of [main]. *)
Definition handler (e : exn) : M unit :=
  match e with
  | HTTPError m => emit (Stderr ("HTTP error during PubMed access: " +:+ m))
  | _ => emit (Stderr ("Unexpected error: " +:+ message e))
  end.

(** [main] from the [try] on, the arguments being parsed: an exception
    of the body goes to its handler. *)
Definition main (w : World) (args : Args) : M unit :=
  match main_body w args with
  | (out, Raises e) => let '(out', r) := handler e in (out ++ out', r)
  | (out, Returns tt) => (out, Returns tt)
  end.

(** ** Vocabulary of the properties *)

(** The test of the classification loop on one author. *)
Definition is_non_academic (a : AuthorInfo) : bool :=
  negb (existsb isAcademic (affiliations a)) && nonempty (name a).

(** The text of an [Affiliation] element when it is kept. *)
Definition kept_text (aff : Element) : option string :=
  if truthy (text aff) then text aff else None.

Definition no_surrounding_space (s : string) : Prop :=
  (∀ c, first_char s = Some c → is_space c = false)
  ∧ (∀ c, last_char s = Some c → is_space c = false).

(** [s] has an email-shaped substring. *)
Definition has_email (s : string) : Prop :=
  ∃ i m, Re.occurs_at s i m ∧ email_shaped m.

(** A field of the record's publication-date structure: the text of the
    child [t] of the first [PubDate] element. *)
Definition date_field (article : Element) (t : string) : option string :=
  d ← find (Desc "PubDate") article; findtext (Child t) d.

(** [dddd-dd-dd] *)
Definition is_iso_date (s : string) : bool :=
  match s with
  | String y1 (String y2 (String y3 (String y4 (String h1
      (String m1 (String m2 (String h2 (String d1 (String d2 ""))))))))) =>
      forallb is_digit [y1; y2; y3; y4; m1; m2; d1; d2]
      && is_char "-" h1 && is_char "-" h2
  | _ => false
  end.

(** Exactly [n] decimal digits. *)
Definition digits (n : nat) (s : string) : bool :=
  bool_decide (String.length s = n) && all is_digit s.

(** The three shapes the publication date is said to take: a numeric
    [YYYY-MM-DD] date, the medline text, or the empty string. *)
Definition three_shapes (article : Element) : Prop :=
  let date := PublicationDate (extract_article article) in
  is_iso_date date = true
  ∨ date_field article "MedlineDate" = Some date
  ∨ date = "".

(** A record dated March 2020 the way PubMed writes months. *)
Definition article_march_2020 : Element :=
  Elem "PubmedArticle" None
    [ Elem "PMID" (Some "1") [];
      Elem "PubDate" None
        [ Elem "Year" (Some "2020") []; Elem "Month" (Some "Mar") [] ] ].

(** Characters whose upper-case form stays in the repertoire and lower-cases
    back to the character's own lower-case form: all but U+00DF, U+00B5
    and U+00FF. *)
Definition case_stable (c : ascii) : bool :=
  negb (code c =? 223)%N && negb (code c =? 181)%N && negb (code c =? 255)%N.

(** The text on which C7, as stated, fails: U+00DF followed by "chool of". *)
Definition sharp_s_chool_of : string := String "223" "chool of".

(** What [output_csv] prints. *)
Definition is_report (ev : event) : bool :=
  match ev with CsvRows _ _ | Saved _ _ => true | _ => false end.

(** The rows handed to the report writer in the course of a run. *)
Definition rows_written (out : list event) : list Paper :=
  flat_map (fun ev => match ev with CsvRows _ rows => rows | _ => [] end) out.

(** A search that finds nothing. *)
Definition quiet_world : World :=
  {| esearch_reply := Returns ([], 0%Z);
     efetch_reply := fun _ => Returns (NotWellFormed "");
     open_reply := fun _ => None;
     write_reply := fun _ _ => None |}.

(** A well-formed reply that holds no bibliographic record at all. *)
Definition error_page : Element :=
  Elem "html" None [ Elem "body" (Some "Service unavailable") [] ].

(** One identifier found, and [error_page] fetched for it. *)
Definition error_page_world : World :=
  {| esearch_reply := Returns (["31452104"], 1%Z);
     efetch_reply := fun _ => Returns (WellFormed error_page);
     open_reply := fun _ => None;
     write_reply := fun _ _ => None |}.

(** Sample data: an element with a text and no child, an author, a record. *)
Definition leaf (t x : string) : Element := Elem t (Some x) [].

Definition author (fore last : string) (affs : list string) : Element :=
  Elem "Author" None
    ([ leaf "LastName" last; leaf "ForeName" fore ]
     ++ ((fun a => Elem "AffiliationInfo" None [ leaf "Affiliation" a ]) <$> affs)).

Definition sample_article : Element :=
  Elem "PubmedArticle" None
    [ Elem "MedlineCitation" None
        [ leaf "PMID" "31452104";
          Elem "Article" None
            [ Elem "Journal" None
                [ Elem "JournalIssue" None
                    [ Elem "PubDate" None [ leaf "Year" "2020" ] ] ];
              leaf "ArticleTitle" "A trial";
              Elem "AuthorList" None
                [ author "Jane" "Doe"
                    [ "  Acme Biotech Inc, contact: jane@acme.com " ];
                  author "Rita" "Roe"
                    [ "Department of Physics, University of X" ];
                  author "Al" "Zed" [];
                  author "Jane" "Doe" [ "Acme Biotech Inc, contact: jane@acme.com" ] ] ] ] ].

(** The company keywords that do not contain another company keyword. *)
Definition COMPANY_KEYWORDS_core : list string :=
  [ "inc"; "ltd"; "llc"; "gmbh"; "corp"; "pharma"; "technologies"; "systems";
    "bio"; "sa"; "nv"; "ab"; "co."; "ag" ].

(** Lines that only the debug flag produces. *)
Definition is_debug (ev : event) : bool :=
  match ev with Debug _ | TotalHits _ _ => true | _ => false end.



(** The line a handler of [main] prints for an exception. *)
Definition diagnostic (e : exn) : string :=
  match e with
  | HTTPError m => "HTTP error during PubMed access: " +:+ m
  | _ => "Unexpected error: " +:+ message e
  end.

(** Where [output_csv] writes: the file named, or standard output when no
    name or an empty one is given. *)
Definition destination (filename : option string) : option string :=
  match filename with
  | Some f => if nonempty f then Some f else None
  | None => None
  end.

(** The authors of [sample_article] in another order, one of them twice. *)
Definition sample_article_shuffled : Element :=
  Elem "PubmedArticle" None
    [ author "Al" "Zed" [];
      author "Jane" "Doe" [ "Acme Biotech Inc, contact: jane@acme.com" ];
      author "Rita" "Roe" [ "Department of Physics, University of X" ];
      author "Al" "Zed" [] ].

(** A record whose authors carry no affiliation. *)
Definition bare_article : Element :=
  Elem "PubmedArticle" None [ author "Al" "Zed" []; author "" "" [] ].

(** * Properties *)

#[local] Arguments String.append !_ _ / : simpl nomatch.

(** ** Text *)

Section TextFacts.

Implicit Types (s t u : string) (c : ascii).

Lemma str_app_nil_r s : s +:+ "" = s.
Proof. induction s as [|c s IH]; simpl; [done|]. by rewrite IH. Qed.

Lemma str_app_assoc s t u : (s +:+ t) +:+ u = s +:+ (t +:+ u).
Proof. induction s as [|c s IH]; simpl; [done|]. by rewrite IH. Qed.

Lemma nonempty_true s : nonempty s = true ↔ s ≠ "".
Proof. by destruct s. Qed.

(** [lstrip] removes a run of white space at the front, nothing else. *)
Lemma lstrip_split s :
  ∃ l, s = l +:+ lstrip s ∧ all is_space l = true.
Proof.
  induction s as [|c s (l & Hs & Hl)]; simpl.
  - by exists "".
  - destruct (is_space c) eqn:Hc.
    + exists (String c l); simpl. rewrite Hc, Hl. split; [|done].
      by rewrite <- Hs.
    + by exists "".
Qed.

Lemma rstrip_split s :
  ∃ r, s = rstrip s +:+ r ∧ all is_space r = true.
Proof.
  induction s as [|c s (r & Hs & Hr)]; simpl.
  - by exists "".
  - destruct (rstrip s) as [|c' s'] eqn:Hrs.
    + destruct (is_space c) eqn:Hc.
      * exists (String c r); simpl in *. rewrite Hc, Hr. by subst.
      * exists r; simpl in *. by subst.
    + exists r. split; [|done]. simpl in *. congruence.
Qed.

Lemma strip_split s :
  ∃ l r, s = l +:+ strip s +:+ r
         ∧ all is_space l = true ∧ all is_space r = true.
Proof.
  destruct (lstrip_split s) as (l & Hl & Hls).
  destruct (rstrip_split (lstrip s)) as (r & Hr & Hrs).
  exists l, r. unfold strip. split_and!; [|done..].
  by rewrite <- Hr, <- Hl.
Qed.

Lemma lstrip_first s c : first_char (lstrip s) = Some c → is_space c = false.
Proof.
  induction s as [|c' s IH]; simpl; [done|].
  destruct (is_space c') eqn:Hc; [done|]. simpl. by intros [= <-].
Qed.

Lemma rstrip_last s c : last_char (rstrip s) = Some c → is_space c = false.
Proof.
  revert c. induction s as [|c' s IH]; intros c; simpl; [done|].
  destruct (rstrip s) as [|c'' s'] eqn:Hrs.
  - destruct (is_space c') eqn:Hc; simpl; [done|]. by intros [= <-].
  - intros H. apply IH. exact H.
Qed.

Lemma rstrip_first s c :
  first_char (rstrip s) = Some c → first_char s = Some c.
Proof.
  destruct s as [|c' s]; simpl; [done|].
  destruct (rstrip s); [destruct (is_space c')|]; simpl; done.
Qed.

Lemma strip_first s c : first_char (strip s) = Some c → is_space c = false.
Proof. intros H%rstrip_first. by eapply lstrip_first. Qed.

Lemma strip_last s c : last_char (strip s) = Some c → is_space c = false.
Proof. apply rstrip_last. Qed.

Lemma lstrip_id s :
  (∀ c, first_char s = Some c → is_space c = false) → lstrip s = s.
Proof.
  destruct s as [|c s]; simpl; [done|].
  intros H. by rewrite (H c eq_refl).
Qed.

Lemma rstrip_id s :
  (∀ c, last_char s = Some c → is_space c = false) → rstrip s = s.
Proof.
  induction s as [|c s IH]; simpl; [done|].
  intros H. destruct s as [|c' s'].
  - simpl. by rewrite (H c eq_refl).
  - rewrite IH by exact H. done.
Qed.

Lemma strip_idemp s : strip (strip s) = strip s.
Proof.
  unfold strip at 1.
  rewrite lstrip_id by apply strip_first.
  apply rstrip_id, strip_last.
Qed.

(** [needle in hay] says that [hay] splits around [needle]. *)
Lemma prefix_split s t : String.prefix s t = true ↔ ∃ u, t = s +:+ u.
Proof.
  revert t. induction s as [|c s IH]; intros [|c' t]; simpl.
  - split; [by exists ""|done].
  - split; [by eexists|done].
  - split; [done|]. by intros [u ?].
  - destruct (ascii_dec c c') as [->|Hne].
    + rewrite IH. split; intros [u Hu]; exists u; congruence.
    + split; [done|]. intros [u [=]]. done.
Qed.

Lemma contains_split s t :
  contains s t = true ↔ ∃ l r, t = l +:+ s +:+ r.
Proof.
  induction t as [|c t IH].
  - change (contains s "") with (String.prefix s "" || false).
    rewrite orb_false_r, prefix_split. split.
    + intros [u Hu]. by exists "", u.
    + intros (l & r & H). destruct l; [|done]. by exists r.
  - change (contains s (String c t))
      with (String.prefix s (String c t) || contains s t).
    rewrite orb_true_iff, prefix_split, IH. split.
    + intros [[u Hu]|(l & r & ->)].
      * by exists "", u.
      * by exists (String c l), r.
    + intros (l & r & H). destruct l as [|c' l]; simpl in H.
      * left. by exists r.
      * right. injection H as -> ->. by exists l, r.
Qed.

End TextFacts.

(** ** The pattern matcher against the pattern's language *)

Section Matcher.

Implicit Types (r : list item) (s m u : string) (k : string → option string).

Lemma rep_sound p k min s m :
  Re.rep p k min s = Some m →
  ∃ u m' rest, s = u +:+ rest ∧ m = u +:+ m' ∧ all p u = true
               ∧ min ≤ String.length u ∧ k rest = Some m'.
Proof.
  revert min m. induction s as [|c s IH]; intros min m; simpl.
  - destruct min; [|done]. intros Hk.
    exists "", m, "". by rewrite Hk.
  - assert (Hstop : match min with 0 => k (String c s) | S _ => None end
                    = Some m →
                    ∃ u m' rest, String c s = u +:+ rest ∧ m = u +:+ m'
                      ∧ all p u = true ∧ min ≤ String.length u
                      ∧ k rest = Some m').
    { destruct min; [|done]. intros Hk. by exists "", m, (String c s). }
    destruct (p c) eqn:Hp; [|exact Hstop].
    destruct (Re.rep p k (pred min) s) as [m0|] eqn:Hrep; [|exact Hstop].
    intros [= <-]. destruct (IH _ _ Hrep) as (u & m' & rest & -> & -> & Hu & Hmin & Hk).
    exists (String c u), m', rest. simpl. rewrite Hp, Hu.
    split_and!; [done..| lia |done].
Qed.

Lemma rep_complete p k min u rest :
  all p u = true → min ≤ String.length u → is_Some (k rest) →
  is_Some (Re.rep p k min (u +:+ rest)).
Proof.
  revert min. induction u as [|c u IH]; intros min; simpl.
  - intros _ Hmin Hk. assert (min = 0) as -> by lia.
    destruct rest as [|c s]; simpl; [done|].
    destruct (p c); [|done]. by destruct (Re.rep p k 0 s).
  - intros [Hp Hu]%andb_true_iff Hmin Hk. rewrite Hp.
    destruct (IH (pred min)) as [m ->]; [done|lia|done|]. by eexists.
Qed.

Lemma match_here_sound r s m :
  Re.match_here r s = Some m → ∃ post, s = m +:+ post ∧ Re.lang r m.
Proof.
  revert s m. induction r as [|[p|p min] r IH]; intros s m; simpl.
  - intros [= <-]. by exists s.
  - destruct s as [|c s]; simpl; [done|].
    destruct (p c) eqn:Hp; [|done].
    destruct (Re.match_here r s) as [m0|] eqn:Hm; simpl; [|done].
    intros [= <-]. destruct (IH _ _ Hm) as (post & -> & Hl).
    exists post. split; [done|]. by exists c, m0.
  - intros (u & m' & rest & -> & -> & Hu & Hmin & Hk)%rep_sound.
    destruct (IH _ _ Hk) as (post & -> & Hl).
    exists post. rewrite str_app_assoc. split; [done|]. by exists u, m'.
Qed.

Lemma match_here_complete r m post :
  Re.lang r m → is_Some (Re.match_here r (m +:+ post)).
Proof.
  revert m. induction r as [|[p|p min] r IH]; intros m; simpl.
  - by intros ->.
  - intros (c & m' & -> & Hp & Hl). simpl. rewrite Hp.
    destruct (IH _ Hl) as [m0 ->]. by eexists.
  - intros (u & m' & -> & Hu & Hmin & Hl). rewrite str_app_assoc.
    apply rep_complete; auto.
Qed.

Lemma search_Some r s m :
  Re.search r s = Some m →
  ∃ pre post, s = pre +:+ m +:+ post ∧ Re.lang r m
    ∧ ∀ pre' m' post', s = pre' +:+ m' +:+ post' → Re.lang r m' →
        String.length pre ≤ String.length pre'.
Proof.
  induction s as [|c s IH].
  - simpl. destruct (Re.match_here r "") as [m0|] eqn:Hm; [|done].
    intros [= ->]. destruct (match_here_sound _ _ _ Hm) as (post & Hs & Hl).
    exists "", post. split_and!; [done..|]. intros; simpl; lia.
  - simpl. destruct (Re.match_here r (String c s)) as [m0|] eqn:Hm.
    + intros [= ->]. destruct (match_here_sound _ _ _ Hm) as (post & Hs & Hl).
      exists "", post. split_and!; [done..|]. intros; simpl; lia.
    + intros (pre & post & -> & Hl & Hleft)%IH.
      exists (String c pre), post. split_and!; [done..|].
      intros [|c' pre'] m' post' Hs Hl'; simpl in Hs.
      * destruct (match_here_complete r m' post' Hl') as [x Hx].
        rewrite <- Hs in Hx. congruence.
      * injection Hs as -> Hs. simpl. apply le_n_S. by eapply Hleft.
Qed.

Lemma search_None r s :
  Re.search r s = None →
  ∀ pre m post, s = pre +:+ m +:+ post → ¬ Re.lang r m.
Proof.
  induction s as [|c s IH]; simpl;
    destruct (Re.match_here r _) as [m0|] eqn:Hm; try done;
    intros Hs pre m post Heq Hl.
  - destruct pre; [|done]. simpl in Heq.
    destruct (match_here_complete r m post Hl) as [x Hx].
    rewrite <- Heq in Hx. congruence.
  - destruct pre as [|c' pre]; simpl in Heq.
    + destruct (match_here_complete r m post Hl) as [x Hx].
      rewrite <- Heq in Hx. congruence.
    + injection Heq as -> Heq. by eapply IH.
Qed.

End Matcher.

(** ** [sorted(set(xs))] *)

Section SortedSet.

Implicit Types (x : string) (xs l : list string).

Lemma elem_of_sorted_set x xs : x ∈ sorted_set xs ↔ x ∈ xs.
Proof.
  unfold sorted_set.
  by rewrite merge_sort_Permutation, elem_of_elements, elem_of_list_to_set.
Qed.

Lemma NoDup_sorted_set xs : NoDup (sorted_set xs).
Proof.
  unfold sorted_set. rewrite merge_sort_Permutation. apply NoDup_elements.
Qed.

Lemma StronglySorted_sorted_set xs : StronglySorted String.le (sorted_set xs).
Proof. apply StronglySorted_merge_sort; apply _. Qed.

(** Without duplicates, sorted means strictly increasing. *)
Lemma StronglySorted_strict l :
  NoDup l → StronglySorted String.le l → StronglySorted (strict String.le) l.
Proof.
  induction 1 as [|x l Hx Hl IH]; intros Hs; [constructor|].
  apply StronglySorted_inv in Hs as [Hs Hall].
  constructor; [by apply IH|].
  rewrite Forall_forall in Hall |- *. intros y Hy. split; [by apply Hall|].
  intros Hyx. assert (x = y) as -> by (apply (anti_symm String.le); auto).
  done.
Qed.

(** Whatever order the set is iterated in, the sorted list is the same. *)
Lemma sorted_set_any_order l xs :
  l ≡ₚ elements (list_to_set xs : gset string) →
  merge_sort String.le l = sorted_set xs.
Proof.
  intros Hl. apply (StronglySorted_unique String.le).
  - apply StronglySorted_merge_sort; apply _.
  - apply StronglySorted_sorted_set.
  - unfold sorted_set. by rewrite !merge_sort_Permutation.
Qed.

End SortedSet.

(** ** The loops of the extractor as maps and filters *)

Section Loops.

Lemma fold_append {A B} (f : A → B) (l : list A) (acc : list B) :
  fold_left (fun acc x => acc ++ [f x]) l acc = acc ++ (f <$> l).
Proof.
  revert acc. induction l as [|x l IH]; intros acc; simpl.
  - by rewrite app_nil_r.
  - by rewrite IH, <- app_assoc.
Qed.

Lemma fold_append_if {A} (p : A → bool) (l acc : list A) :
  fold_left (fun acc x => if p x then acc ++ [x] else acc) l acc
  = acc ++ List.filter p l.
Proof.
  revert acc. induction l as [|x l IH]; intros acc; simpl.
  - by rewrite app_nil_r.
  - rewrite IH. destruct (p x); [|done]. by rewrite <- app_assoc.
Qed.

Lemma authors_info_map article :
  authors_info article = author_info <$> findall (Desc "Author") article.
Proof. unfold authors_info. by rewrite fold_append. Qed.

Lemma collect_fold (l : list Element) (acc : list string) :
  fold_left
    (fun affs aff =>
       if truthy (text aff) then affs ++ [strip (default "" (text aff))]
       else affs) l acc
  = acc ++ (strip <$> omap kept_text l).
Proof.
  revert acc. induction l as [|aff l IH]; intros acc; simpl.
  - by rewrite app_nil_r.
  - rewrite IH. unfold kept_text at 2.
    destruct (truthy (text aff)) eqn:Ht; [|done].
    destruct (text aff) as [t|]; [|done]. simpl.
    by rewrite <- app_assoc.
Qed.

Lemma collect_affs_map author :
  collect_affs author
  = strip <$> omap kept_text
      (findall (DescChild "AffiliationInfo" "Affiliation") author).
Proof. unfold collect_affs. by rewrite collect_fold. Qed.

Lemma classify_fold infos st :
  fold_left classify_step infos st
  = (st.1 ++ (name <$> List.filter is_non_academic infos),
     st.2 ++ flat_map (fun a => List.filter isCompany (affiliations a)) infos).
Proof.
  revert st. induction infos as [|a infos IH]; intros [l1 l2]; simpl.
  - by rewrite !app_nil_r.
  - rewrite IH. unfold classify_step; simpl. rewrite fold_append_if.
    fold (is_non_academic a). f_equal.
    + destruct (is_non_academic a); [|done]. by rewrite <- app_assoc.
    + by rewrite <- app_assoc.
Qed.

Lemma non_academic_authors_filter infos :
  non_academic_authors infos = name <$> List.filter is_non_academic infos.
Proof. unfold non_academic_authors, classify. by rewrite classify_fold. Qed.

Lemma company_affiliations_filter infos :
  company_affiliations infos
  = flat_map (fun a => List.filter isCompany (affiliations a)) infos.
Proof. unfold company_affiliations, classify. by rewrite classify_fold. Qed.

Lemma is_non_academic_spec a :
  is_non_academic a = true
  ↔ (∀ aff, aff ∈ affiliations a → isAcademic aff = false) ∧ name a ≠ "".
Proof.
  unfold is_non_academic.
  rewrite andb_true_iff, negb_true_iff, nonempty_true.
  apply and_iff_compat_r. split.
  - intros H aff Haff. apply not_true_is_false. intros Hac.
    assert (existsb isAcademic (affiliations a) = true); [|congruence].
    apply existsb_exists. exists aff. by rewrite <- list_elem_of_In.
  - intros H. apply not_true_is_false.
    intros (aff & Hin & Hac)%existsb_exists.
    apply list_elem_of_In, H in Hin. congruence.
Qed.

Lemma non_academic_authors_unique_eq infos :
  non_academic_authors_unique infos = sorted_set (non_academic_authors infos).
Proof.
  unfold non_academic_authors_unique.
  by destruct (non_academic_authors infos).
Qed.

End Loops.

Section ListFacts.

Context {A B : Type}.

Lemma elem_of_List_filter (p : A → bool) (l : list A) (x : A) :
  x ∈ List.filter p l ↔ x ∈ l ∧ p x = true.
Proof. by rewrite !list_elem_of_In, filter_In. Qed.

Lemma elem_of_flat_map (f : A → list B) (l : list A) (y : B) :
  y ∈ flat_map f l ↔ ∃ x, x ∈ l ∧ y ∈ f x.
Proof.
  rewrite list_elem_of_In, in_flat_map.
  split; intros (x & Hx & Hy); exists x; by rewrite ?list_elem_of_In in *.
Qed.

End ListFacts.

Lemma isCompany_empty : isCompany "" = false.
Proof. reflexivity. Qed.

(** ** The claims about the author and company sets *)

(** C1. For every record and every author in it, the author's name is added
    to the non-academic authors exactly when none of the author's
    affiliation strings satisfies [isAcademic] and the display name is not
    empty: this holds of each pass through the loop body, of the list the
    loop builds, and of the sorted set behind the report cell.  An author
    with no affiliation and a non-empty name is therefore always included. *)
Theorem non_academic_authors_iff (article : Element) :
  let infos := authors_info article in
  infos = author_info <$> findall (Desc "Author") article
  ∧ (∀ st a,
       (classify_step st a).1
       = if is_non_academic a then st.1 ++ [name a] else st.1)
  ∧ (∀ a, is_non_academic a = true
          ↔ (∀ aff, aff ∈ affiliations a → isAcademic aff = false)
            ∧ name a ≠ "")
  ∧ non_academic_authors infos = name <$> List.filter is_non_academic infos
  ∧ (∀ n, n ∈ non_academic_authors_unique infos
          ↔ ∃ a, a ∈ infos ∧ name a = n
                 ∧ (∀ aff, aff ∈ affiliations a → isAcademic aff = false)
                 ∧ n ≠ "")
  ∧ (∀ a, a ∈ infos → affiliations a = [] → name a ≠ "" →
          name a ∈ non_academic_authors_unique infos)
  ∧ NonAcademicAuthors (extract_article article)
    = join "; " (non_academic_authors_unique infos).
Proof.
  intros infos.
  assert (Hmem : ∀ n, n ∈ non_academic_authors_unique infos
          ↔ ∃ a, a ∈ infos ∧ name a = n
                 ∧ (∀ aff, aff ∈ affiliations a → isAcademic aff = false)
                 ∧ n ≠ "").
  { intros n.
    rewrite non_academic_authors_unique_eq, elem_of_sorted_set,
      non_academic_authors_filter, list_elem_of_fmap.
    split.
    - intros (a & -> & [Ha Hna]%elem_of_List_filter).
      apply is_non_academic_spec in Hna as [??]. by exists a.
    - intros (a & Ha & <- & Hac & Hn). exists a. split; [done|].
      apply elem_of_List_filter. split; [done|].
      by apply is_non_academic_spec. }
  split_and!.
  - apply authors_info_map.
  - done.
  - apply is_non_academic_spec.
  - apply non_academic_authors_filter.
  - exact Hmem.
  - intros a Ha Haffs Hn. apply Hmem. exists a. split_and!; [done..| |done].
    rewrite Haffs. by intros aff ?%elem_of_nil.
  - unfold extract_article; simpl. fold infos.
    rewrite non_academic_authors_unique_eq.
    case_bool_decide as Hnil; [|done]. by rewrite Hnil.
Qed.

(** C2. For every record, an affiliation string is in the company
    affiliations exactly when it satisfies [isCompany]; the test runs over
    every affiliation of every author, whether or not the author is
    academic, and what is stored is the affiliation string itself: the
    whole text of its element, less the white space around it. *)
Theorem company_affiliations_iff (article : Element) :
  let infos := authors_info article in
  company_affiliations infos
  = flat_map (fun a => List.filter isCompany (affiliations a)) infos
  ∧ (∀ s, s ∈ company_affiliations_unique infos
          ↔ ∃ a, a ∈ infos ∧ s ∈ affiliations a ∧ isCompany s = true)
  ∧ (∀ a s, a ∈ infos → s ∈ affiliations a → isCompany s = true →
            existsb isAcademic (affiliations a) = true →
            s ∈ company_affiliations_unique infos)
  ∧ (∀ s, s ∈ company_affiliations_unique infos →
          ∃ author aff t,
            author ∈ findall (Desc "Author") article
            ∧ aff ∈ findall (DescChild "AffiliationInfo" "Affiliation") author
            ∧ text aff = Some t ∧ s = strip t
            ∧ ∃ l r, t = l +:+ s +:+ r
                     ∧ all is_space l = true ∧ all is_space r = true)
  ∧ CompanyAffiliations (extract_article article)
    = join "; " (company_affiliations_unique infos).
Proof.
  intros infos.
  assert (Hmem : ∀ s, s ∈ company_affiliations_unique infos
          ↔ ∃ a, a ∈ infos ∧ s ∈ affiliations a ∧ isCompany s = true).
  { intros s. unfold company_affiliations_unique.
    rewrite elem_of_sorted_set, company_affiliations_filter, elem_of_flat_map.
    by setoid_rewrite elem_of_List_filter. }
  split_and!.
  - apply company_affiliations_filter.
  - exact Hmem.
  - intros a s Ha Hs Hc _. apply Hmem. by exists a.
  - intros s (a & Ha & Hs & _)%Hmem.
    unfold infos in Ha. rewrite authors_info_map in Ha.
    apply list_elem_of_fmap in Ha as (author & -> & Hauthor).
    simpl in Hs. rewrite collect_affs_map in Hs.
    apply list_elem_of_fmap in Hs as (t & -> & Ht).
    apply list_elem_of_omap in Ht as (aff & Haff & Hk).
    exists author, aff, t. split_and!; [done..| |done|apply strip_split].
    unfold kept_text in Hk. by destruct (truthy (text aff)).
  - done.
Qed.

(** [String.le] is the lexicographic order on code points, a proper prefix
    coming first: the order of Python's [<=] on [str]. *)
Lemma le_lexicographic (s t : string) :
  String.le s t
  ↔ match s, t with
    | "", _ => True
    | String _ _, "" => False
    | String c s', String d t' =>
        (code c < code d)%N ∨ (c = d ∧ String.le s' t')
    end.
Proof.
  unfold String.le, String.leb.
  destruct s as [|c s], t as [|d t]; simpl; try done.
  unfold Ascii.compare, code.
  destruct (N.compare_spec (N_of_ascii c) (N_of_ascii d)) as [Heq|Hlt|Hgt].
  - apply (f_equal ascii_of_N) in Heq.
    rewrite !ascii_N_embedding in Heq. subst d. split; [by right|].
    intros [?|[_ ?]]; [lia|done].
  - split; [by left|done].
  - split; [done|]. intros [?|[-> _]]; lia.
Qed.

Lemma non_academic_cell (article : Element) :
  NonAcademicAuthors (extract_article article)
  = join "; " (non_academic_authors_unique (authors_info article)).
Proof.
  unfold extract_article; simpl.
  rewrite non_academic_authors_unique_eq.
  case_bool_decide as Hnil; [|done]. by rewrite Hnil.
Qed.

(** C4. For every Paper the extractor produces, the non-academic authors
    behind its cell are free of duplicates and sorted lexicographically
    (strictly increasing), and so are the company affiliations; both lists
    hold exactly the strings the classification loop collected, and the
    cells are their ["; "]-joins. *)
Theorem author_and_company_sets_sorted (article : Element) :
  let infos := authors_info article in
  let names := non_academic_authors_unique infos in
  let companies := company_affiliations_unique infos in
  NonAcademicAuthors (extract_article article) = join "; " names
  ∧ CompanyAffiliations (extract_article article) = join "; " companies
  ∧ NoDup names
  ∧ StronglySorted (strict String.le) names
  ∧ (∀ n, n ∈ names ↔ n ∈ non_academic_authors infos)
  ∧ NoDup companies
  ∧ StronglySorted (strict String.le) companies
  ∧ (∀ s, s ∈ companies ↔ s ∈ company_affiliations infos).
Proof.
  intros infos names companies. unfold names, companies.
  rewrite non_academic_authors_unique_eq. unfold company_affiliations_unique.
  split_and!.
  - rewrite <- non_academic_authors_unique_eq. apply non_academic_cell.
  - done.
  - apply NoDup_sorted_set.
  - apply StronglySorted_strict;
      [apply NoDup_sorted_set|apply StronglySorted_sorted_set].
  - intros n. apply elem_of_sorted_set.
  - apply NoDup_sorted_set.
  - apply StronglySorted_strict;
      [apply NoDup_sorted_set|apply StronglySorted_sorted_set].
  - intros s. apply elem_of_sorted_set.
Qed.

Lemma kept_text_None (aff : Element) :
  kept_text aff = None ↔ text aff = None ∨ text aff = Some "".
Proof.
  unfold kept_text. destruct (text aff) as [[|c t]|]; simpl.
  - split; [by right|done].
  - split; [done|]. by intros [?|?].
  - split; [by left|done].
Qed.

Lemma affiliations_are_stripped (article : Element) (a : AuthorInfo) (s : string) :
  a ∈ authors_info article → s ∈ affiliations a → ∃ t, s = strip t.
Proof.
  rewrite authors_info_map.
  intros (author & -> & _)%list_elem_of_fmap. simpl.
  rewrite collect_affs_map. intros (t & -> & _)%list_elem_of_fmap. by exists t.
Qed.

(** C10. Every affiliation string is the stripped text of its element,
    that is the text without the white space that leads and trails it, and
    elements with a missing or empty text contribute nothing; the strings
    that classification, the email scan and the company set read are these
    stripped strings.  No entry of the company affiliations has leading or
    trailing white space, and none is the empty string. *)
Theorem affiliations_stripped (article : Element) :
  let infos := authors_info article in
  (∀ author, author ∈ findall (Desc "Author") article →
     affiliations (author_info author)
     = strip <$> omap kept_text
         (findall (DescChild "AffiliationInfo" "Affiliation") author))
  ∧ (∀ aff, kept_text aff = None ↔ text aff = None ∨ text aff = Some "")
  ∧ (∀ aff t, kept_text aff = Some t → text aff = Some t)
  ∧ (∀ t, ∃ l r, t = l +:+ strip t +:+ r
                 ∧ all is_space l = true ∧ all is_space r = true)
  ∧ (∀ a s, a ∈ infos → s ∈ affiliations a →
       strip s = s ∧ no_surrounding_space s)
  ∧ (∀ s, s ∈ company_affiliations_unique infos →
       s ≠ "" ∧ no_surrounding_space s).
Proof.
  intros infos.
  assert (Hstripped : ∀ a s, a ∈ infos → s ∈ affiliations a →
            strip s = s ∧ no_surrounding_space s).
  { intros a s Ha Hs.
    destruct (affiliations_are_stripped article a s Ha Hs) as [t ->].
    split; [apply strip_idemp|].
    split; [apply strip_first|apply strip_last]. }
  split_and!.
  - intros author _. simpl. apply collect_affs_map.
  - apply kept_text_None.
  - intros aff t. unfold kept_text. by destruct (truthy (text aff)).
  - apply strip_split.
  - exact Hstripped.
  - intros s. unfold company_affiliations_unique.
    rewrite elem_of_sorted_set, company_affiliations_filter, elem_of_flat_map.
    intros (a & Ha & [Hs Hc]%elem_of_List_filter). split.
    + intros ->. by rewrite isCompany_empty in Hc.
    + by eapply Hstripped.
Qed.

(** ** The corresponding email *)

Section Email.

Lemma email_shaped_nonempty (m : string) : email_shaped m → m ≠ "".
Proof.
  intros (u & m' & -> & _ & Hlen & _) Hm.
  destruct u; simpl in *; [lia|done].
Qed.

(** The pattern read part by part: a non-empty local part, [@], a
    non-empty domain, a dot, and a label of two letters or more. *)
Lemma email_shaped_parts (m : string) :
  email_shaped m
  ↔ ∃ loc dom tld,
      m = loc +:+ "@" +:+ dom +:+ "." +:+ tld
      ∧ all local_class loc = true ∧ 1 ≤ String.length loc
      ∧ all domain_class dom = true ∧ 1 ≤ String.length dom
      ∧ all is_alpha tld = true ∧ 2 ≤ String.length tld.
Proof.
  unfold email_shaped, EMAIL_REGEX. simpl. split.
  - intros (loc & m1 & -> & Hloc & Hlen1 & c1 & m2 & -> & Hc1
            & dom & m3 & -> & Hdom & Hlen2 & c2 & m4 & -> & Hc2
            & tld & m5 & -> & Htld & Hlen3 & ->).
    apply bool_decide_eq_true in Hc1 as ->.
    apply bool_decide_eq_true in Hc2 as ->.
    exists loc, dom, tld. by rewrite str_app_nil_r.
  - intros (loc & dom & tld & -> & Hloc & Hlen1 & Hdom & Hlen2 & Htld & Hlen3).
    exists loc, ("@" +:+ dom +:+ "." +:+ tld). split_and!; [done..|].
    exists "@"%char, (dom +:+ "." +:+ tld). split_and!; [done..|].
    exists dom, ("." +:+ tld). split_and!; [done..|].
    exists "."%char, tld. split_and!; [done..|].
    exists tld, "". by rewrite str_app_nil_r.
Qed.

Lemma extractEmail_Some (s m : string) :
  extractEmail s = Some m →
  email_shaped m
  ∧ ∃ i, Re.occurs_at s i m
         ∧ ∀ j m', Re.occurs_at s j m' → email_shaped m' → i ≤ j.
Proof.
  intros (pre & post & -> & Hl & Hleft)%search_Some. split; [done|].
  exists (String.length pre). split; [by exists pre, post|].
  intros j m' (pre' & post' & Heq & <-) Hm'. by eapply Hleft.
Qed.

Lemma extractEmail_None (s : string) : extractEmail s = None ↔ ¬ has_email s.
Proof.
  split.
  - intros Hnone (i & m & (pre & post & Heq & _) & Hm).
    by eapply search_None.
  - intros Hno. destruct (extractEmail s) as [m|] eqn:Hs; [|done].
    destruct Hno. apply extractEmail_Some in Hs as (Hm & i & Hocc & _).
    by exists i, m.
Qed.

Lemma extractEmail_nonempty (s m : string) :
  extractEmail s = Some m → nonempty m = true.
Proof.
  intros [Hm _]%extractEmail_Some. by apply nonempty_true, email_shaped_nonempty.
Qed.

Lemma scan_affiliations_head (affs : list string) :
  scan_affiliations affs = default "" (head (omap extractEmail affs)).
Proof.
  induction affs as [|aff affs IH]; simpl; [done|].
  fold (extractEmail aff). by destruct (extractEmail aff).
Qed.

Lemma omap_extractEmail_nonempty (affs : list string) (m : string) :
  head (omap extractEmail affs) = Some m → nonempty m = true.
Proof.
  intros Hm. assert (m ∈ omap extractEmail affs) as Hin.
  { destruct (omap extractEmail affs); simplify_eq/=. left. }
  apply list_elem_of_omap in Hin as (aff & _ & Haff).
  by eapply extractEmail_nonempty.
Qed.

Lemma scan_authors_head (infos : list AuthorInfo) :
  scan_authors infos
  = default "" (head (omap extractEmail (flat_map affiliations infos))).
Proof.
  induction infos as [|a infos IH]; simpl; [done|].
  rewrite scan_affiliations_head, omap_app.
  destruct (omap extractEmail (affiliations a)) as [|m ms] eqn:Ha; simpl.
  - exact IH.
  - assert (nonempty m = true) as ->; [|done].
    apply (omap_extractEmail_nonempty (affiliations a)). by rewrite Ha.
Qed.

Lemma omap_extractEmail_nil (affs : list string) :
  omap extractEmail affs = [] ↔ ∀ aff, aff ∈ affs → ¬ has_email aff.
Proof.
  induction affs as [|aff affs IH]; simpl.
  - split; [|done]. by intros _ aff ?%elem_of_nil.
  - destruct (extractEmail aff) as [m|] eqn:Haff.
    + split; [done|]. intros H. destruct (H aff); [left|].
      apply extractEmail_Some in Haff as (Hm & i & Hocc & _). by exists i, m.
    + rewrite IH. split.
      * intros H x [->|Hx]%elem_of_cons; [by apply extractEmail_None|auto].
      * intros H x Hx. apply H. by right.
Qed.

End Email.

(** C3. For every record, the corresponding email is the first match of the
    email pattern met while scanning the authors in source order and, within
    an author, the affiliations in source order: it is the match found in
    the first affiliation that has an email-shaped substring, that match
    starts at the leftmost offset at which one starts, and the scan reads no
    further.  It is the empty string exactly when no affiliation of any
    author has an email-shaped substring. *)
Theorem corresponding_email_first_match (article : Element) :
  let affs := flat_map affiliations (authors_info article) in
  let email := CorrespondingEmail (extract_article article) in
  affs = flat_map collect_affs (findall (Desc "Author") article)
  ∧ email = default "" (head (omap extractEmail affs))
  ∧ ((∀ aff, aff ∈ affs → ¬ has_email aff) ↔ email = "")
  ∧ (∀ before aff after,
       affs = before ++ aff :: after →
       (∀ b, b ∈ before → ¬ has_email b) →
       has_email aff →
       extractEmail aff = Some email
       ∧ email_shaped email
       ∧ ∃ i, Re.occurs_at aff i email
              ∧ ∀ j m, Re.occurs_at aff j m → email_shaped m → i ≤ j).
Proof.
  intros affs email.
  assert (Hhead : email = default "" (head (omap extractEmail affs))).
  { apply scan_authors_head. }
  split_and!.
  - unfold affs. rewrite authors_info_map.
    generalize (findall (Desc "Author") article). intros l.
    induction l as [|x l IH]; simpl; [done|]. f_equal. exact IH.
  - exact Hhead.
  - rewrite <- omap_extractEmail_nil. split.
    + intros Hnil. by rewrite Hhead, Hnil.
    + intros Hemail.
      destruct (omap extractEmail affs) as [|m ms] eqn:Hom; [done|].
      assert (nonempty m = true) as Hm.
      { apply (omap_extractEmail_nonempty affs). by rewrite Hom. }
      simpl in Hhead. rewrite Hemail in Hhead. by subst m.
  - intros before aff after Haffs Hbefore Haff.
    destruct (extractEmail aff) as [m|] eqn:Hm.
    2:{ by apply extractEmail_None in Hm. }
    assert (email = m) as ->.
    { rewrite Hhead, Haffs, omap_app.
      apply omap_extractEmail_nil in Hbefore as ->. simpl. by rewrite Hm. }
    split; [done|]. by apply extractEmail_Some.
Qed.

(** ** The publication date *)

Lemma pub_date_fields (article : Element) :
  pub_date article
  = if truthy (date_field article "Year") then
      default "" (date_field article "Year") +:+ "-"
      +:+ por (date_field article "Month") "01" +:+ "-"
      +:+ por (date_field article "Day") "01"
    else if truthy (date_field article "MedlineDate") then
      default "" (date_field article "MedlineDate")
    else "".
Proof.
  unfold pub_date, date_field.
  by destruct (find (Desc "PubDate") article).
Qed.

(** C5. For every record the publication date is: when the year is present,
    the year, the month or ["01"], and the day or ["01"], joined by hyphens,
    where the month used is the month's own text when the month is present
    and ["01"] when it is absent, and likewise for the day; otherwise the
    medline text verbatim when that is present; otherwise the empty string.
    A field is present when it has a non-empty text, which is what the
    program's [or] and [if] test.  A record with year 2020 and neither month
    nor day gets ["2020-01-01"]. *)
Theorem publication_date_rule (article : Element) :
  let year := date_field article "Year" in
  let month := date_field article "Month" in
  let day := date_field article "Day" in
  let medline := date_field article "MedlineDate" in
  let date := PublicationDate (extract_article article) in
  (∀ y, year = Some y → y ≠ "" →
        date = y +:+ "-" +:+ por month "01" +:+ "-" +:+ por day "01")
  ∧ (truthy month = false → por month "01" = "01")
  ∧ (truthy day = false → por day "01" = "01")
  ∧ (∀ m, truthy year = false → medline = Some m → m ≠ "" → date = m)
  ∧ (truthy year = false → truthy medline = false → date = "")
  ∧ (year = Some "2020" → truthy month = false → truthy day = false →
     date = "2020-01-01")
  ∧ (∀ m, month = Some m → m ≠ "" → por month "01" = m)
  ∧ (∀ d, day = Some d → d ≠ "" → por day "01" = d)
  ∧ (∀ o, truthy o = false ↔ o = None ∨ o = Some "")
  ∧ (∀ y m d, year = Some y → y ≠ "" →
       (month = Some m ∧ m ≠ "" ∨ (month = None ∨ month = Some "") ∧ m = "01") →
       (day = Some d ∧ d ≠ "" ∨ (day = None ∨ day = Some "") ∧ d = "01") →
       date = y +:+ "-" +:+ m +:+ "-" +:+ d)
  ∧ (∀ m, (year = None ∨ year = Some "") → medline = Some m → m ≠ "" →
       date = m)
  ∧ ((year = None ∨ year = Some "") → (medline = None ∨ medline = Some "") →
       date = "").
Proof.
  intros year month day medline date.
  assert (Hdate : date = pub_date article) by done.
  rewrite pub_date_fields in Hdate. fold year month day medline in Hdate.
  assert (Hdef : ∀ o, truthy o = false → por o "01" = "01").
  { intros [[|c s]|]; simpl; done. }
  assert (Huse : ∀ o x, o = Some x → x ≠ "" → por o "01" = x).
  { intros o [|c x] -> Hx; simpl; done. }
  assert (Habsent : ∀ o, truthy o = false ↔ o = None ∨ o = Some "").
  { intros [[|c x]|]; simpl; split; try done; auto; by intros [?|?]. }
  assert (Hyear : ∀ y, year = Some y → y ≠ "" →
            date = y +:+ "-" +:+ por month "01" +:+ "-" +:+ por day "01").
  { intros y Hy Hne. rewrite Hy in Hdate. simpl in Hdate.
    apply nonempty_true in Hne. by rewrite Hne in Hdate. }
  assert (Hmedline : ∀ m, truthy year = false → medline = Some m → m ≠ "" →
            date = m).
  { intros m Hy Hm Hne. rewrite Hy, Hm in Hdate. simpl in Hdate.
    apply nonempty_true in Hne. by rewrite Hne in Hdate. }
  assert (Hnone : truthy year = false → truthy medline = false → date = "").
  { intros Hy Hmed. by rewrite Hy, Hmed in Hdate. }
  split_and!.
  - exact Hyear.
  - apply Hdef.
  - apply Hdef.
  - exact Hmedline.
  - exact Hnone.
  - intros Hy Hmonth Hday. rewrite (Hyear "2020" Hy) by done.
    by rewrite (Hdef _ Hmonth), (Hdef _ Hday).
  - apply Huse.
  - apply Huse.
  - exact Habsent.
  - intros y m d Hy Hne Hm Hd. rewrite (Hyear y Hy Hne).
    assert (por month "01" = m) as ->.
    { destruct Hm as [[Hm ?]|[Hm ->]]; [by apply Huse|].
      by apply Hdef, Habsent. }
    assert (por day "01" = d) as ->; [|done].
    destruct Hd as [[Hd ?]|[Hd ->]]; [by apply Huse|].
    by apply Hdef, Habsent.
  - intros m Hy. apply Hmedline. by apply Habsent.
  - intros Hy Hmed. apply Hnone; by apply Habsent.
Qed.

(** C6, as stated, fails: the date of [article_march_2020] is
    ["2020-Mar-01"], which is none of the three shapes. *)
Lemma publication_date_month_name :
  PublicationDate (extract_article article_march_2020) = "2020-Mar-01"
  ∧ ¬ three_shapes article_march_2020.
Proof.
  split; [reflexivity|].
  unfold three_shapes. rewrite (eq_refl :
    PublicationDate (extract_article article_march_2020) = "2020-Mar-01").
  intros [H|[H|H]]; vm_compute in H; discriminate H.
Qed.

Lemma digits_4 (s : string) :
  digits 4 s = true →
  ∃ a b c d, s = String a (String b (String c (String d "")))
             ∧ forallb is_digit [a; b; c; d] = true.
Proof.
  unfold digits. intros [Hlen Hall]%andb_true_iff.
  apply bool_decide_eq_true in Hlen.
  destruct s as [|a [|b [|c [|d [|]]]]]; try done.
  exists a, b, c, d. split; [done|]. simpl in *.
  exact Hall.
Qed.

Lemma digits_2 (s : string) :
  digits 2 s = true →
  ∃ a b, s = String a (String b "") ∧ forallb is_digit [a; b] = true.
Proof.
  unfold digits. intros [Hlen Hall]%andb_true_iff.
  apply bool_decide_eq_true in Hlen.
  destruct s as [|a [|b [|]]]; try done.
  exists a, b. split; [done|]. simpl in *.
  exact Hall.
Qed.

Lemma iso_date_of_digits (y m d : string) :
  digits 4 y = true → digits 2 m = true → digits 2 d = true →
  is_iso_date (y +:+ "-" +:+ m +:+ "-" +:+ d) = true.
Proof.
  intros (y1 & y2 & y3 & y4 & -> & Hy)%digits_4
         (m1 & m2 & -> & Hm)%digits_2 (d1 & d2 & -> & Hd)%digits_2.
  simpl in *.
  repeat match goal with
         | H : _ && _ = true |- _ => apply andb_true_iff in H as [??]
         end.
  repeat match goal with
         | H : is_digit _ = true |- _ => rewrite H; clear H
         end.
  reflexivity.
Qed.

(** C6, amended.  For every record the publication date is one of: the
    year, month and day texts joined by hyphens as they stand, month and day
    being ["01"] when absent, if the year is present; the medline text
    verbatim, if there is no year but a medline text; the empty string, if
    there is neither.  The first is a numeric [YYYY-MM-DD] date whenever
    the year is four digits and the month and the day used are two.  The
    month used is the month's own text when it has one and ["01"] when it
    has none, and likewise the day. *)
Theorem publication_date_shapes (article : Element) :
  let year := date_field article "Year" in
  let month := por (date_field article "Month") "01" in
  let day := por (date_field article "Day") "01" in
  let medline := date_field article "MedlineDate" in
  let date := PublicationDate (extract_article article) in
  ((∃ y, year = Some y ∧ y ≠ ""
         ∧ date = y +:+ "-" +:+ month +:+ "-" +:+ day
         ∧ (digits 4 y = true → digits 2 month = true → digits 2 day = true →
            is_iso_date date = true))
   ∨ (truthy year = false ∧ ∃ m, medline = Some m ∧ m ≠ "" ∧ date = m)
   ∨ (truthy year = false ∧ truthy medline = false ∧ date = ""))
  ∧ (∀ m, date_field article "Month" = Some m → m ≠ "" → month = m)
  ∧ (date_field article "Month" = None ∨ date_field article "Month" = Some ""
     → month = "01")
  ∧ (∀ d, date_field article "Day" = Some d → d ≠ "" → day = d)
  ∧ (date_field article "Day" = None ∨ date_field article "Day" = Some ""
     → day = "01").
Proof.
  intros year month day medline date.
  assert (Huse : ∀ o x, o = Some x → x ≠ "" → por o "01" = x).
  { intros o [|c x] -> Hx; simpl; done. }
  assert (Hdef : ∀ o, o = None ∨ o = Some "" → por o "01" = "01").
  { by intros o [-> | ->]. }
  split; [|split_and!; [apply Huse|apply Hdef|apply Huse|apply Hdef]].
  assert (Hdate : date = pub_date article) by done.
  rewrite pub_date_fields in Hdate. fold year month day medline in Hdate.
  destruct (truthy year) eqn:Hyear.
  - left. destruct year as [y|]; [|done]. exists y. simpl in *.
    split_and!; [done|by apply nonempty_true|done|].
    rewrite Hdate. apply iso_date_of_digits.
  - right. destruct (truthy medline) eqn:Hmed.
    + left. split; [done|]. destruct medline as [m|]; [|done]. exists m.
      simpl in *. split_and!; [done|by apply nonempty_true|done].
    + by right.
Qed.

(** ** Case-insensitivity of the keyword test *)

Lemma upper_char_stable (c : ascii) :
  case_stable c = true →
  ∃ u, upper_char c = Some (String u "") ∧ lower_char u = lower_char c.
Proof.
  destruct c as [[] [] [] [] [] [] [] []]; intros H;
    try discriminate H; eexists; split; reflexivity.
Qed.

Lemma is_ascii_stable (c : ascii) : is_ascii c = true → case_stable c = true.
Proof.
  destruct c as [[] [] [] [] [] [] [] []]; intros H;
    try discriminate H; reflexivity.
Qed.

Lemma upper_then_lower (T : string) :
  all case_stable T = true → ∃ U, upper T = Some U ∧ lower U = lower T.
Proof.
  induction T as [|c T IH]; simpl.
  - intros _. by exists "".
  - intros [Hc HT]%andb_true_iff.
    destruct (upper_char_stable c Hc) as (u & -> & Hu).
    destruct (IH HT) as (U & -> & HU). simpl.
    exists (String u U). split; [done|]. simpl. by rewrite Hu, HU.
Qed.

Lemma all_impl (p q : ascii → bool) (s : string) :
  (∀ c, p c = true → q c = true) → all p s = true → all q s = true.
Proof.
  intros Hpq. induction s as [|c s IH]; simpl; [done|].
  intros [Hc Hs]%andb_true_iff. by rewrite (Hpq c Hc), IH.
Qed.

(** C7, as stated, fails: upper-casing [sharp_s_chool_of] gives
    "SSCHOOL OF", which contains the keyword "school of" once lower-cased,
    while the text itself contains no academic keyword. *)
Lemma isAcademic_upper_sharp_s :
  upper sharp_s_chool_of = Some "SSCHOOL OF"
  ∧ isAcademic sharp_s_chool_of = false
  ∧ isAcademic "SSCHOOL OF" = true.
Proof. split_and!; reflexivity. Qed.

(** C7, amended.  For every text whose characters are ASCII or, more
    widely, any characters of the repertoire other than U+00DF, U+00B5 and
    U+00FF, the keyword test gives the same answer on the text and on its
    upper-cased form; this holds of the academic keyword set and of any
    other. *)
Theorem isAcademic_upper_stable (T : string) :
  all is_ascii T = true ∨ all case_stable T = true →
  ∃ U, upper T = Some U
       ∧ isAcademic U = isAcademic T
       ∧ ∀ keywords, contains_keyword U keywords = contains_keyword T keywords.
Proof.
  intros HT.
  destruct (upper_then_lower T) as (U & HU & Hlow).
  { destruct HT as [HT|HT]; [|done].
    by apply (all_impl is_ascii), HT; apply is_ascii_stable. }
  exists U. unfold isAcademic, contains_keyword. by rewrite Hlow.
Qed.

Lemma isAcademic_upper_stable_witness :
  all is_ascii "School of Medicine" = true
  ∧ ∃ U, upper "School of Medicine" = Some U
         ∧ isAcademic U = isAcademic "School of Medicine"
         ∧ ∀ keywords,
             contains_keyword U keywords
             = contains_keyword "School of Medicine" keywords.
Proof.
  split; [reflexivity|].
  apply (isAcademic_upper_stable "School of Medicine"). left. reflexivity.
Defined.

(** ** The run *)

Lemma extract_loop_run (debug : bool) (articles : list Element)
    (results : list Paper) :
  extract_loop debug articles results
  = ((if debug
      then (fun a => Debug (ExtractedRecord (extract_article a))) <$> articles
      else []),
     Returns (results ++ (extract_article <$> articles))).
Proof.
  revert results. induction articles as [|a articles IH]; intros results.
  - simpl. rewrite app_nil_r. by destruct debug.
  - cbn [extract_loop]. unfold debug_print.
    destruct debug; cbn; rewrite IH; cbn; by rewrite <- app_assoc.
Qed.

(** C8. When the search returns no identifier, the run prints the
    "No papers found" notice on the diagnostic stream and returns normally;
    nothing is fetched or extracted, no Paper is written, and the report
    writer is never called. *)
Theorem no_papers_found (w : World) (args : Args) (total : Z) :
  esearch_reply w = Returns ([], total) →
  main w args
  = ((if arg_debug args
      then [Debug CallingEsearch; Debug (EsearchResult total [])] else [])
     ++ [Stderr "No papers found for the query."],
     Returns tt)
  ∧ Stderr "No papers found for the query." ∈ (main w args).1
  ∧ rows_written (main w args).1 = []
  ∧ List.filter is_report (main w args).1 = [].
Proof.
  intros Hreply.
  assert (Hmain : main w args
    = ((if arg_debug args
        then [Debug CallingEsearch; Debug (EsearchResult total [])] else [])
       ++ [Stderr "No papers found for the query."],
       Returns tt)).
  { unfold main, main_body, esearch, debug_print. rewrite Hreply.
    by destruct (arg_debug args). }
  rewrite Hmain. split_and!; [done|..]; destruct (arg_debug args); simpl;
    try done; rewrite !elem_of_cons; auto.
Qed.

Lemma no_papers_found_witness :
  esearch_reply quiet_world = Returns ([], 0%Z)
  ∧ main quiet_world {| arg_debug := false; arg_file := Some "out.csv" |}
  = ([Stderr "No papers found for the query."], Returns tt).
Proof.
  split; [reflexivity|].
  apply (proj1 (no_papers_found quiet_world
                  {| arg_debug := false; arg_file := Some "out.csv" |} 0
                  eq_refl)).
Defined.

(** C9, as stated, fails: no [PubmedArticle] container can be located in
    [error_page], yet the extraction returns the empty list without any
    failure, and the run goes on to write a report without rows. *)
Lemma missing_containers_no_failure :
  findall (Desc "PubmedArticle") error_page = []
  ∧ extract_papers (WellFormed error_page) false = ([], Returns [])
  ∧ main error_page_world {| arg_debug := false; arg_file := None |}
    = ([CsvRows None []], Returns tt).
Proof. split_and!; reflexivity. Qed.

(** C9, amended.  A batch that is not well-formed XML makes the extraction
    raise a parse failure for the whole batch; the run reports it on the
    diagnostic stream and ends without writing a report.  A well-formed
    batch never makes the extraction raise, whatever sub-fields its records
    lack: the result is one Paper per [PubmedArticle] element in document
    order, and the empty list when there is no such element. *)
Theorem parse_failure_and_missing_fields (w : World) (args : Args) :
  (∀ msg debug,
     extract_papers (NotWellFormed msg) debug = ([], Raises (ParseError msg)))
  ∧ (∀ id ids total msg,
       esearch_reply w = Returns (id :: ids, total) →
       efetch_reply w (id :: ids) = Returns (NotWellFormed msg) →
       (main w args).2 = Returns tt
       ∧ last (main w args).1 = Some (Stderr ("Unexpected error: " +:+ msg))
       ∧ rows_written (main w args).1 = []
       ∧ List.filter is_report (main w args).1 = [])
  ∧ (∀ root debug,
       (extract_papers (WellFormed root) debug).2
       = Returns (extract_article <$> findall (Desc "PubmedArticle") root))
  ∧ (∀ root debug,
       findall (Desc "PubmedArticle") root = [] →
       extract_papers (WellFormed root) debug = ([], Returns [])).
Proof.
  split_and!.
  - done.
  - intros id ids total msg Hsearch Hfetch.
    unfold main, main_body, esearch, efetch, debug_print.
    rewrite Hsearch. destruct (arg_debug args); cbn; rewrite Hfetch; cbn; done.
  - intros root debug. unfold extract_papers. by rewrite extract_loop_run.
  - intros root debug Hnone. unfold extract_papers. by rewrite Hnone.
Qed.

(** ** Worked records *)

Example sample_paper :
  extract_article sample_article
  = {| PubmedID := "31452104";
       Title := "A trial";
       PublicationDate := "2020-01-01";
       NonAcademicAuthors := "Al Zed; Jane Doe";
       CompanyAffiliations := "Acme Biotech Inc, contact: jane@acme.com";
       CorrespondingEmail := "jane@acme.com" |}.
Proof. vm_compute. reflexivity. Qed.

Example full_date :
  pub_date (Elem "PubmedArticle" None
              [ Elem "PubDate" None
                  [ leaf "Year" "2020"; leaf "Month" "03"; leaf "Day" "15" ] ])
  = "2020-03-15".
Proof. reflexivity. Qed.

Example medline_date :
  pub_date (Elem "PubmedArticle" None
              [ Elem "PubDate" None [ leaf "MedlineDate" "2020 Spring" ] ])
  = "2020 Spring"
  ∧ pub_date (Elem "PubmedArticle" None [ Elem "PubDate" None [] ]) = "".
Proof. split; reflexivity. Qed.

(** Substring matching: "ag" inside "Agriculture" counts as a company. *)
Example short_keyword_matches :
  isCompany "Agriculture Dept" = true ∧ isAcademic "Agriculture Dept" = false.
Proof. split; reflexivity. Qed.

(** The domain is taken as far as it goes and given back until a dot is
    followed by two letters. *)
Example email_backtracks :
  extractEmail "write to a.b@lab.example.com.x, or c@d.org"
  = Some "a.b@lab.example.com"
  ∧ extractEmail "a@b.c and @x.org" = None.
Proof. split; reflexivity. Qed.

(** A text of white space only is kept, as the empty string. *)
Example blank_affiliation_kept :
  collect_affs (author "Al" "Zed" [ "  " ]) = [ "" ]
  ∧ company_affiliations_unique [ author_info (author "Al" "Zed" [ "  " ]) ] = [].
Proof. split; reflexivity. Qed.

Example strip_white_space :
  strip (String "160" (String "009" " Acme Inc" +:+ String "010" " ")) = "Acme Inc"
  ∧ strip "   " = "".
Proof. split; reflexivity. Qed.

(** A reply that is not XML ends the run with a diagnostic. *)
Example parse_failure_run :
  main {| esearch_reply := Returns (["31452104"], 1%Z);
          efetch_reply := fun _ => Returns (NotWellFormed "syntax error: line 1, column 0");
          open_reply := fun _ => None;
     write_reply := fun _ _ => None |}
       {| arg_debug := false; arg_file := Some "out.csv" |}
  = ([Stderr "Unexpected error: syntax error: line 1, column 0"], Returns tt).
Proof. reflexivity. Qed.

(** A row that cannot be written cuts the report short: the header is
    out, the diagnostic follows. *)
Example failing_write_run :
  main {| esearch_reply := Returns (["31452104"], 1%Z);
          efetch_reply := fun _ =>
            Returns (WellFormed (Elem "PubmedArticleSet" None [ sample_article ]));
          open_reply := fun _ => None;
          write_reply := fun _ i =>
            if Nat.eqb i 1 then Some (OtherError "codec can't encode character")
            else None |}
       {| arg_debug := false; arg_file := None |}
  = ([CsvRows None [];
      Stderr "Unexpected error: codec can't encode character"], Returns tt).
Proof. vm_compute. reflexivity. Qed.

Example report_run :
  main {| esearch_reply := Returns (["31452104"], 1%Z);
          efetch_reply := fun _ =>
            Returns (WellFormed (Elem "PubmedArticleSet" None [ sample_article ]));
          open_reply := fun _ => None;
     write_reply := fun _ _ => None |}
       {| arg_debug := false; arg_file := Some "out.csv" |}
  = ([CsvRows (Some "out.csv") [extract_article sample_article];
      Saved 1 "out.csv"], Returns tt).
Proof. vm_compute. reflexivity. Qed.

(** * Further properties of the code *)

(** ** [contains_keyword] *)

Section Keywords.

Implicit Types (t k : string) (keywords : list string).

Lemma lower_app s t : lower (s +:+ t) = lower s +:+ lower t.
Proof. induction s as [|c s IH]; simpl; [done|]. by rewrite IH. Qed.

Lemma lower_char_idemp (c : ascii) : lower_char (lower_char c) = lower_char c.
Proof. destruct c as [[] [] [] [] [] [] [] []]; reflexivity. Qed.

Lemma lower_idemp s : lower (lower s) = lower s.
Proof.
  induction s as [|c s IH]; simpl; [done|].
  by rewrite lower_char_idemp, IH.
Qed.

Lemma contains_trans s t u :
  contains s t = true → contains t u = true → contains s u = true.
Proof.
  rewrite !contains_split. intros (l & r & ->) (l' & r' & ->).
  exists (l' +:+ l), (r +:+ r'). by rewrite !str_app_assoc.
Qed.

Lemma contains_keyword_true t keywords :
  contains_keyword t keywords = true
  ↔ ∃ k, k ∈ keywords ∧ contains (lower k) (lower t) = true.
Proof.
  unfold contains_keyword. rewrite existsb_exists.
  by setoid_rewrite list_elem_of_In.
Qed.

(** One keyword list does the work of another when each keyword of the
    second contains a keyword of the first. *)
Lemma contains_keyword_subsumed t keywords keywords' :
  forallb (fun k' => existsb (fun k => contains (lower k) (lower k')) keywords)
    keywords' = true →
  contains_keyword t keywords' = true → contains_keyword t keywords = true.
Proof.
  rewrite forallb_forall. intros Hsub.
  rewrite !contains_keyword_true. intros (k' & Hk' & Hin).
  apply list_elem_of_In, Hsub, existsb_exists in Hk' as (k & Hk & Hkk').
  exists k. split; [by apply list_elem_of_In|]. by eapply contains_trans.
Qed.

End Keywords.

(** X1. [contains_keyword] answers true exactly when the lower-cased form of
    some keyword occurs as a substring of the lower-cased text.  Hence an
    empty keyword list matches nothing, and a list holding the empty
    keyword matches every text. *)
Theorem contains_keyword_substring (t : string) (keywords : list string) :
  (contains_keyword t keywords = true
   ↔ ∃ k l r, k ∈ keywords ∧ lower t = l +:+ lower k +:+ r)
  ∧ contains_keyword t [] = false
  ∧ ("" ∈ keywords → contains_keyword t keywords = true).
Proof.
  split_and!.
  - rewrite contains_keyword_true. setoid_rewrite contains_split.
    split.
    + intros (k & Hk & l & r & Heq). by exists k, l, r.
    + intros (k & l & r & Hk & Heq). exists k. split; [done|]. by exists l, r.
  - done.
  - intros Hin. apply contains_keyword_true. exists "". split; [done|].
    apply contains_split. by exists "", (lower t).
Qed.

(** X2. A keyword match survives any text put before or after: if a text
    matches a keyword list, so does every text that contains it. *)
Theorem contains_keyword_context (t l r : string) (keywords : list string) :
  contains_keyword t keywords = true →
  contains_keyword (l +:+ t +:+ r) keywords = true.
Proof.
  rewrite !contains_keyword_true. intros (k & Hk & Hin).
  exists k. split; [done|]. eapply contains_trans; [exact Hin|].
  apply contains_split. exists (lower l), (lower r). by rewrite !lower_app.
Qed.

Lemma contains_keyword_context_witness :
  contains_keyword "Pfizer Inc" COMPANY_KEYWORDS = true
  ∧ contains_keyword ("Dr. X, " +:+ "Pfizer Inc" +:+ ", New York")
      COMPANY_KEYWORDS = true.
Proof.
  split; [reflexivity|].
  apply (contains_keyword_context "Pfizer Inc" "Dr. X, " ", New York").
  reflexivity.
Defined.

(** X3. The answer of [contains_keyword] does not depend on the case of the
    text or of the keywords in so far as lower-casing levels it: the
    lower-cased text against the lower-cased keywords gives the answer of
    the text against the keywords. *)
Theorem contains_keyword_lower (t : string) (keywords : list string) :
  contains_keyword (lower t) (lower <$> keywords) = contains_keyword t keywords.
Proof.
  unfold contains_keyword. rewrite lower_idemp.
  induction keywords as [|k keywords IH]; simpl; [done|].
  rewrite lower_idemp. f_equal. exact IH.
Qed.

(** X4. Six of the twenty company keywords never decide anything: each of
    "biotech", "biotechnology", "corporation", "laboratories", "laboratory"
    and "sas" contains a shorter company keyword, so [isCompany] is the
    keyword test against the remaining fourteen. *)
Theorem isCompany_core_keywords (t : string) :
  isCompany t = contains_keyword t COMPANY_KEYWORDS_core.
Proof.
  unfold isCompany.
  destruct (contains_keyword t COMPANY_KEYWORDS_core) eqn:Hcore.
  - revert Hcore. by apply contains_keyword_subsumed.
  - apply not_true_is_false. intros Hall.
    apply (contains_keyword_subsumed t COMPANY_KEYWORDS_core) in Hall;
      [congruence|reflexivity].
Qed.

(** ** The email pattern *)

Section EmailPattern.

Implicit Types (r : list item) (s m u : string) (c : ascii).

Lemma all_app p s t : all p (s +:+ t) = all p s && all p t.
Proof.
  induction s as [|c s IH]; simpl; [done|].
  by rewrite IH, andb_assoc.
Qed.

Lemma str_app_length s t :
  String.length (s +:+ t) = String.length s + String.length t.
Proof. induction s as [|c s IH]; simpl; [done|]. by rewrite IH. Qed.

Lemma alpha_domain c : is_alpha c = true → domain_class c = true.
Proof. unfold domain_class. by intros ->. Qed.

Lemma domain_local c : domain_class c = true → local_class c = true.
Proof.
  unfold domain_class, local_class.
  destruct (is_alpha c), (is_digit c), (is_char "." c), (is_char "-" c);
    simpl; try done; by rewrite ?orb_true_r.
Qed.

Lemma local_plain c :
  local_class c || is_char "@" c = true →
  is_ascii c && negb (is_space c) = true.
Proof.
  destruct c as [[] [] [] [] [] [] [] []]; intros H;
    try discriminate H; reflexivity.
Qed.

Lemma local_not_at c : local_class c = true → is_char "@" c = false.
Proof.
  destruct c as [[] [] [] [] [] [] [] []]; intros H;
    try discriminate H; reflexivity.
Qed.

Lemma last_char_split s c : last_char s = Some c → ∃ s0, s = s0 +:+ String c "".
Proof.
  induction s as [|c' s IH]; [done|].
  destruct s as [|c'' s'].
  - intros [= ->]. by exists "".
  - intros H. destruct (IH H) as [s0 Hs0]. exists (String c' s0).
    simpl. by rewrite <- Hs0.
Qed.

Lemma match_here_extend r u x post :
  Re.match_here r u = Some x → is_Some (Re.match_here r (u +:+ post)).
Proof.
  intros (post' & -> & Hl)%match_here_sound. rewrite str_app_assoc.
  by apply match_here_complete.
Qed.

(** What a search finds is what the anchored match finds at the leftmost
    suffix that has a match. *)
Lemma search_suffix r s m :
  Re.search r s = Some m →
  ∃ pre s', s = pre +:+ s' ∧ Re.match_here r s' = Some m
    ∧ ∀ pre' m' post', s = pre' +:+ m' +:+ post' → Re.lang r m' →
        String.length pre ≤ String.length pre'.
Proof.
  induction s as [|c s IH].
  - simpl. destruct (Re.match_here r "") as [m0|] eqn:Hm; [|done].
    intros [= ->]. exists "", "". split_and!; [done..|]. intros; simpl; lia.
  - simpl. destruct (Re.match_here r (String c s)) as [m0|] eqn:Hm.
    + intros [= ->]. exists "", (String c s).
      split_and!; [done..|]. intros; simpl; lia.
    + intros (pre & s' & -> & Hs' & Hleft)%IH.
      exists (String c pre), s'. split_and!; [done..|].
      intros [|c' pre'] m' post' Hs Hl'; simpl in Hs.
      * destruct (match_here_complete r m' post' Hl') as [x Hx].
        rewrite <- Hs in Hx. congruence.
      * injection Hs as -> Hs. simpl. apply le_n_S. by eapply Hleft.
Qed.

(** The anchored match of a text is again the anchored match of itself:
    cutting the input after the match changes nothing. *)
Lemma rep_stable p r min s m :
  (∀ x y, Re.match_here r x = Some y → Re.match_here r y = Some y) →
  Re.rep p (Re.match_here r) min s = Some m →
  Re.rep p (Re.match_here r) min m = Some m.
Proof.
  intros IHk. revert min m. induction s as [|c s IH]; intros min m.
  - simpl. destruct min; [|done]. intros Hk.
    destruct (match_here_sound _ _ _ Hk) as (post & Hs & _).
    destruct m; [|done]. simpl. exact Hk.
  - assert (Hstop : match min with
                    | 0 => Re.match_here r (String c s)
                    | S _ => None
                    end = Some m →
                    (p c = false ∨ Re.rep p (Re.match_here r) 0 s = None) →
                    Re.rep p (Re.match_here r) min m = Some m).
    { destruct min; [|done]. intros Hk Hwhy.
      destruct (match_here_sound _ _ _ Hk) as (post & Hs & _).
      apply IHk in Hk. destruct m as [|c' m']; [exact Hk|].
      simpl in Hs. injection Hs as <- ->. simpl.
      destruct (p c) eqn:Hp; [|exact Hk].
      destruct Hwhy as [?|Hnone]; [done|].
      destruct (Re.rep p (Re.match_here r) 0 m') as [x|] eqn:Hx; [|exact Hk].
      destruct (match_here_extend (Rep p 0 :: r) m' x post Hx) as [y Hy].
      simpl in Hy. congruence. }
    simpl. destruct (p c) eqn:Hp; [|intros; apply Hstop; auto].
    destruct (Re.rep p (Re.match_here r) (pred min) s) as [m0|] eqn:Hrep.
    + intros [= <-]. simpl. rewrite Hp. by rewrite (IH _ _ Hrep).
    + intros Hk. apply Hstop; [done|]. right.
      destruct min; [exact Hrep|done].
Qed.

Lemma match_here_stable r s m :
  Re.match_here r s = Some m → Re.match_here r m = Some m.
Proof.
  revert s m. induction r as [|[p|p min] r IH]; intros s m; simpl.
  - by intros [= <-].
  - destruct s as [|c s]; simpl; [done|].
    destruct (p c) eqn:Hp; [|done].
    destruct (Re.match_here r s) as [m0|] eqn:Hm; simpl; [|done].
    intros [= <-]. simpl. by rewrite Hp, (IH _ _ Hm).
  - by apply rep_stable.
Qed.

(** The last repetition of a pattern runs as far as its class allows. *)
Lemma rep_last p min s m :
  Re.rep p (Re.match_here []) min s = Some m →
  ∃ post, s = m +:+ post ∧ ∀ c, first_char post = Some c → p c = false.
Proof.
  revert min m. induction s as [|c s IH]; intros min m; cbn [Re.rep].
  - destruct min; [|done]. simpl. intros [= <-]. by exists "".
  - destruct (p c) eqn:Hp.
    + destruct (Re.rep p (Re.match_here []) (pred min) s) as [m0|] eqn:Hrep.
      * intros [= ?]; subst m.
        destruct (IH _ _ Hrep) as (post & -> & Hpost). by exists post.
      * destruct min; [|done].
        destruct (rep_complete p (Re.match_here []) 0 "" s) as [x Hx];
          [done|simpl; lia|by eexists|].
        simpl in Hx, Hrep. congruence.
    + destruct min; [|done]. simpl. intros [= <-]. exists (String c s).
      split; [done|]. by intros c' [= <-].
Qed.

Lemma email_match_tail s m :
  Re.match_here EMAIL_REGEX s = Some m →
  ∃ post, s = m +:+ post ∧ ∀ c, first_char post = Some c → is_alpha c = false.
Proof.
  unfold EMAIL_REGEX. cbn [Re.match_here].
  intros (u1 & m1 & rest1 & -> & -> & _ & _ & H1)%rep_sound.
  destruct rest1 as [|c1 rest2]; [done|]. simpl in H1.
  destruct (is_char "@" c1); [|done].
  destruct (Re.rep domain_class _ 1 rest2) as [m2|] eqn:H2; [|done].
  injection H1 as <-.
  apply rep_sound in H2 as (u2 & m3 & rest3 & -> & -> & _ & _ & H3).
  destruct rest3 as [|c2 rest4]; [done|]. simpl in H3.
  destruct (is_char "." c2); [|done].
  destruct (Re.rep is_alpha _ 2 rest4) as [m4|] eqn:H4; [|done].
  injection H3 as <-.
  apply rep_last in H4 as (post & -> & Hpost).
  exists post. split; [|done].
  rewrite !str_app_assoc. simpl. by rewrite !str_app_assoc.
Qed.

End EmailPattern.

(** X5. A text without the character [@] has no email: [extractEmail]
    returns nothing. *)
Theorem extractEmail_needs_at (s : string) :
  all (fun c => negb (is_char "@" c)) s = true → extractEmail s = None.
Proof.
  intros Hs. destruct (extractEmail s) as [m|] eqn:Hm; [|done].
  apply extractEmail_Some in Hm as (Hshape & i & (pre & post & -> & _) & _).
  apply email_shaped_parts in Hshape as (loc & dom & tld & -> & _).
  rewrite !all_app in Hs. simpl in Hs.
  by rewrite !andb_false_r, ?andb_false_l in Hs.
Qed.

Lemma extractEmail_needs_at_witness :
  all (fun c => negb (is_char "@" c)) "Acme Inc, info at acme.com" = true
  ∧ extractEmail "Acme Inc, info at acme.com" = None.
Proof.
  split; [reflexivity|].
  apply (extractEmail_needs_at "Acme Inc, info at acme.com"). reflexivity.
Defined.

(** X6. What [extractEmail] returns is a substring of the text, at least six
    characters long, made of one [@] between a local part and a domain part
    that hold no [@]; every character of it is an ASCII character and none
    is white space. *)
Theorem extractEmail_result (s m : string) :
  extractEmail s = Some m →
  contains m s = true
  ∧ 6 ≤ String.length m
  ∧ (∃ loc rest, m = loc +:+ "@" +:+ rest
       ∧ all local_class loc = true ∧ all domain_class rest = true
       ∧ all (fun c => negb (is_char "@" c)) (loc +:+ rest) = true)
  ∧ all (fun c => is_ascii c && negb (is_space c)) m = true.
Proof.
  intros (Hshape & i & (pre & post & -> & _) & _)%extractEmail_Some.
  apply email_shaped_parts in Hshape
    as (loc & dom & tld & -> & Hloc & Hl1 & Hdom & Hl2 & Htld & Hl3).
  assert (Hrest : all domain_class (dom +:+ "." +:+ tld) = true).
  { rewrite !all_app, Hdom. simpl.
    by rewrite (all_impl is_alpha domain_class tld alpha_domain Htld). }
  assert (Hlocal : all local_class (loc +:+ dom +:+ "." +:+ tld) = true).
  { rewrite all_app, Hloc. simpl.
    by apply (all_impl domain_class local_class _ domain_local). }
  split_and!.
  - apply contains_split. by exists pre, post.
  - repeat (rewrite str_app_length; simpl). lia.
  - exists loc, (dom +:+ "." +:+ tld). split_and!; [done..|].
    apply (all_impl local_class); [|done].
    intros c Hc. by rewrite (local_not_at c Hc).
  - apply (all_impl (fun c => local_class c || is_char "@" c));
      [apply local_plain|].
    rewrite all_app. simpl. rewrite andb_true_iff. split.
    + apply (all_impl local_class); [|done]. by intros c ->.
    + apply (all_impl domain_class); [|done].
      intros c Hc. by rewrite (domain_local c Hc).
Qed.

Lemma extractEmail_result_witness :
  extractEmail "Contact: jane.doe@acme.com." = Some "jane.doe@acme.com"
  ∧ contains "jane.doe@acme.com" "Contact: jane.doe@acme.com." = true.
Proof.
  split; [reflexivity|].
  apply (extractEmail_result "Contact: jane.doe@acme.com." "jane.doe@acme.com").
  reflexivity.
Defined.

(** X7. An address that [extractEmail] returned is returned unchanged when
    [extractEmail] is run on it. *)
Theorem extractEmail_idempotent (s m : string) :
  extractEmail s = Some m → extractEmail m = Some m.
Proof.
  intros (pre & s' & _ & Hhere & _)%search_suffix.
  apply match_here_stable in Hhere. unfold extractEmail.
  destruct m; cbn [Re.search]; by rewrite Hhere.
Qed.

Lemma extractEmail_idempotent_witness :
  extractEmail "see a.b@lab.example.com.x" = Some "a.b@lab.example.com"
  ∧ extractEmail "a.b@lab.example.com" = Some "a.b@lab.example.com".
Proof.
  split; [reflexivity|].
  apply (extractEmail_idempotent "see a.b@lab.example.com.x"). reflexivity.
Defined.

(** X8. [extractEmail] does not start in the middle of a local part nor stop
    in the middle of a word: in the text, the character before the match is
    not one the local part admits, and the character after it is not a
    letter. *)
Theorem extractEmail_boundaries (s m : string) :
  extractEmail s = Some m →
  ∃ pre post, s = pre +:+ m +:+ post
    ∧ (∀ c, last_char pre = Some c → local_class c = false)
    ∧ (∀ c, first_char post = Some c → is_alpha c = false).
Proof.
  intros Hm. pose proof Hm as [Hshape _]%extractEmail_Some.
  apply search_suffix in Hm as (pre & s' & -> & Hhere & Hleft).
  apply email_match_tail in Hhere as (post & -> & Hpost).
  exists pre, post. split_and!; [done| |done].
  intros c (pre0 & ->)%last_char_split. apply not_true_is_false. intros Hc.
  specialize (Hleft pre0 (String c m) post).
  rewrite str_app_length in Hleft. simpl in Hleft.
  assert (String.length pre0 + 1 ≤ String.length pre0); [|lia].
  apply Hleft.
  - rewrite str_app_assoc. done.
  - apply email_shaped_parts in Hshape
      as (loc & dom & tld & -> & Hloc & Hl1 & Hrest).
    apply email_shaped_parts. exists (String c loc), dom, tld.
    split_and!; [done|simpl; by rewrite Hc|simpl; lia|apply Hrest..].
Qed.

Lemma extractEmail_boundaries_witness :
  ∃ pre post, "mail <jane@acme.com>" = pre +:+ "jane@acme.com" +:+ post
    ∧ (∀ c, last_char pre = Some c → local_class c = false)
    ∧ (∀ c, first_char post = Some c → is_alpha c = false).
Proof.
  apply (extractEmail_boundaries "mail <jane@acme.com>" "jane@acme.com").
  reflexivity.
Defined.

(** ** Names, sets and dates of a record *)

Section Stripping.

Implicit Types (s t l r : string).

Lemma lstrip_space l : all is_space l = true → lstrip l = "".
Proof.
  induction l as [|c l IH]; simpl; [done|].
  intros [Hc Hl]%andb_true_iff. rewrite Hc. by apply IH.
Qed.

Lemma lstrip_app_space l s : all is_space l = true → lstrip (l +:+ s) = lstrip s.
Proof.
  induction l as [|c l IH]; simpl; [done|].
  intros [Hc Hl]%andb_true_iff. rewrite Hc. by apply IH.
Qed.

Lemma rstrip_space r : all is_space r = true → rstrip r = "".
Proof.
  induction r as [|c r IH]; simpl; [done|].
  intros [Hc Hr]%andb_true_iff. by rewrite IH, Hc.
Qed.

Lemma rstrip_app_space t r : all is_space r = true → rstrip (t +:+ r) = rstrip t.
Proof.
  intros Hr. induction t as [|c t IH]; simpl.
  - by apply rstrip_space.
  - by rewrite IH.
Qed.

(** [strip] is the only way to take white space off both ends. *)
Lemma strip_unique l t r :
  all is_space l = true → all is_space r = true → no_surrounding_space t →
  strip (l +:+ t +:+ r) = t.
Proof.
  intros Hl Hr [Hfirst Hlast]. unfold strip.
  rewrite lstrip_app_space by done.
  destruct t as [|c t].
  - simpl. rewrite lstrip_space by done. done.
  - simpl. rewrite (Hfirst c eq_refl).
    change (String c (t +:+ r)) with (String c t +:+ r).
    rewrite rstrip_app_space by done. by apply rstrip_id.
Qed.

Lemma strip_app_space s r : all is_space r = true → strip (s +:+ r) = strip s.
Proof.
  intros Hr. destruct (strip_split s) as (l0 & r0 & Hs & Hl0 & Hr0).
  rewrite Hs at 1. rewrite !str_app_assoc.
  apply strip_unique; [done| |].
  - by rewrite all_app, Hr0, Hr.
  - split; [apply strip_first|apply strip_last].
Qed.

Lemma strip_empty_iff s : strip s = "" ↔ all is_space s = true.
Proof.
  split.
  - intros Hs. destruct (strip_split s) as (l & r & Heq & Hl & Hr).
    rewrite Hs in Heq. rewrite Heq, all_app. simpl. by rewrite Hl, Hr.
  - intros Hs. unfold strip. by rewrite lstrip_space.
Qed.

End Stripping.

(** X9. The display name of an author is the forename, a space and the
    lastname, stripped: it never has white space around it; when the
    forename is missing or empty it is the stripped lastname, when the
    lastname is missing or empty the stripped forename; and it is empty
    exactly when both parts are blank. *)
Theorem author_name_rules (author : Element) :
  let lastname := por (findtext (Child "LastName") author) "" in
  let forename := por (findtext (Child "ForeName") author) "" in
  let name := name (author_info author) in
  no_surrounding_space name
  ∧ (forename = "" → name = strip lastname)
  ∧ (lastname = "" → name = strip forename)
  ∧ (name = "" ↔ all is_space forename = true ∧ all is_space lastname = true).
Proof.
  intros lastname forename name.
  assert (Hname : name = strip (forename +:+ " " +:+ lastname)) by done.
  split_and!.
  - rewrite Hname. split; [apply strip_first|apply strip_last].
  - intros Hf. by rewrite Hname, Hf.
  - intros Hl. rewrite Hname, Hl. by apply strip_app_space.
  - rewrite Hname, strip_empty_iff, all_app. simpl.
    by rewrite andb_true_iff.
Qed.

Lemma sorted_set_nil : sorted_set [] = [].
Proof. unfold sorted_set. simpl. by rewrite elements_empty. Qed.

(** The sorted set is a function of the set of its elements. *)
Lemma sorted_set_ext (xs ys : list string) :
  (∀ x, x ∈ xs ↔ x ∈ ys) → sorted_set xs = sorted_set ys.
Proof.
  intros Hxy. unfold sorted_set. f_equal. f_equal.
  apply set_eq. intros x. by rewrite !elem_of_list_to_set.
Qed.

(** X10. In a record whose authors carry no affiliation, and so in a record
    without authors, every author with a non-empty name is reported as
    non-academic, the company cell is empty and so is the email. *)
Theorem record_without_affiliations (article : Element) :
  (∀ a, a ∈ authors_info article → affiliations a = []) →
  (∀ n, n ∈ non_academic_authors_unique (authors_info article)
        ↔ n ≠ "" ∧ ∃ a, a ∈ authors_info article ∧ name a = n)
  ∧ CompanyAffiliations (extract_article article) = ""
  ∧ CorrespondingEmail (extract_article article) = "".
Proof.
  intros Hnone.
  assert (Haffs : flat_map affiliations (authors_info article) = []).
  { induction (authors_info article) as [|a infos IH]; simpl; [done|].
    rewrite (Hnone a) by left. apply IH. intros b Hb. apply Hnone. by right. }
  split_and!.
  - intros n.
    rewrite non_academic_authors_unique_eq, elem_of_sorted_set,
      non_academic_authors_filter, list_elem_of_fmap.
    setoid_rewrite elem_of_List_filter.
    setoid_rewrite is_non_academic_spec. split.
    + intros (a & -> & Ha & _ & Hn). split; [done|]. by exists a.
    + intros (Hn & a & Ha & <-). exists a. split_and!; [done..| |done].
      rewrite (Hnone a Ha). by intros aff ?%elem_of_nil.
  - unfold extract_article; simpl. unfold company_affiliations_unique.
    rewrite company_affiliations_filter.
    assert (flat_map (fun a => List.filter isCompany (affiliations a))
              (authors_info article) = []) as ->.
    { induction (authors_info article) as [|a infos IH]; simpl; [done|].
      rewrite (Hnone a) by left. apply IH.
      - intros b Hb. apply Hnone. by right.
      - simpl in Haffs. by rewrite (Hnone a) in Haffs by left. }
    by rewrite sorted_set_nil.
  - unfold extract_article; simpl. by rewrite scan_authors_head, Haffs.
Qed.

Lemma record_without_affiliations_witness :
  CompanyAffiliations (extract_article bare_article) = ""
  ∧ CorrespondingEmail (extract_article bare_article) = "".
Proof.
  apply (record_without_affiliations bare_article).
  intros a Ha. apply list_elem_of_In in Ha. vm_compute in Ha.
  destruct Ha as [<-|[<-|[]]]; reflexivity.
Defined.

(** X11. The two set-valued cells of a Paper depend on the authors as a set:
    two records whose author entries are the same up to order and
    repetition get the same non-academic authors and the same company
    affiliations. *)
Theorem cells_ignore_author_order (article article' : Element) :
  (∀ a, a ∈ authors_info article ↔ a ∈ authors_info article') →
  NonAcademicAuthors (extract_article article)
  = NonAcademicAuthors (extract_article article')
  ∧ CompanyAffiliations (extract_article article)
    = CompanyAffiliations (extract_article article').
Proof.
  intros Hsame. split.
  - rewrite !non_academic_cell, !non_academic_authors_unique_eq. f_equal.
    apply sorted_set_ext. intros n.
    rewrite !non_academic_authors_filter, !list_elem_of_fmap.
    setoid_rewrite elem_of_List_filter. by setoid_rewrite Hsame.
  - unfold extract_article; simpl. f_equal.
    unfold company_affiliations_unique. apply sorted_set_ext. intros s.
    rewrite !company_affiliations_filter, !elem_of_flat_map.
    by setoid_rewrite Hsame.
Qed.

Lemma cells_ignore_author_order_witness :
  NonAcademicAuthors (extract_article sample_article)
  = NonAcademicAuthors (extract_article sample_article_shuffled)
  ∧ CompanyAffiliations (extract_article sample_article)
    = CompanyAffiliations (extract_article sample_article_shuffled).
Proof.
  apply (cells_ignore_author_order sample_article sample_article_shuffled).
  intros a. rewrite !list_elem_of_In. vm_compute. tauto.
Defined.

(** X12. The corresponding email is never made up: when it is not empty it
    is an email-shaped substring of the text of an [Affiliation] element of
    one of the record's authors. *)
Theorem email_comes_from_affiliation (article : Element) :
  let email := CorrespondingEmail (extract_article article) in
  email ≠ "" →
  ∃ author aff t,
    author ∈ findall (Desc "Author") article
    ∧ aff ∈ findall (DescChild "AffiliationInfo" "Affiliation") author
    ∧ text aff = Some t
    ∧ contains email t = true
    ∧ email_shaped email.
Proof.
  intros email Hne.
  assert (Hhead : email
    = default "" (head (omap extractEmail
                          (flat_map affiliations (authors_info article))))).
  { apply scan_authors_head. }
  destruct (omap extractEmail (flat_map affiliations (authors_info article)))
    as [|m ms] eqn:Hom; [done|].
  simpl in Hhead. subst m.
  assert (Hin : email ∈ omap extractEmail
                  (flat_map affiliations (authors_info article))).
  { rewrite Hom. left. }
  apply list_elem_of_omap in Hin as (s & Hs & Hemail).
  apply elem_of_flat_map in Hs as (a & Ha & Hs).
  rewrite authors_info_map in Ha.
  apply list_elem_of_fmap in Ha as (author & -> & Hauthor).
  simpl in Hs. rewrite collect_affs_map in Hs.
  apply list_elem_of_fmap in Hs as (t & -> & Ht).
  apply list_elem_of_omap in Ht as (aff & Haff & Hk).
  exists author, aff, t. split_and!; [done..| | |].
  - unfold kept_text in Hk. by destruct (truthy (text aff)).
  - apply (contains_trans _ (strip t)).
    + apply search_Some in Hemail as (pre & post & Heq & _).
      apply contains_split. by exists pre, post.
    + destruct (strip_split t) as (l & r & Heq & _).
      apply contains_split. by exists l, r.
  - by apply extractEmail_Some in Hemail as [? _].
Qed.

Lemma email_comes_from_affiliation_witness :
  ∃ author aff t,
    author ∈ findall (Desc "Author") sample_article
    ∧ aff ∈ findall (DescChild "AffiliationInfo" "Affiliation") author
    ∧ text aff = Some t
    ∧ contains (CorrespondingEmail (extract_article sample_article)) t = true
    ∧ email_shaped (CorrespondingEmail (extract_article sample_article)).
Proof. apply (email_comes_from_affiliation sample_article). by vm_compute. Defined.

(** X13. The publication date is empty exactly when the record has neither
    a year nor a medline text; month and day alone give no date. *)
Theorem publication_date_empty_iff (article : Element) :
  PublicationDate (extract_article article) = ""
  ↔ truthy (date_field article "Year") = false
    ∧ truthy (date_field article "MedlineDate") = false.
Proof.
  change (PublicationDate (extract_article article)) with (pub_date article).
  rewrite pub_date_fields.
  destruct (date_field article "Year") as [[|c y]|] eqn:Hy; simpl;
    destruct (date_field article "MedlineDate") as [[|c' m]|] eqn:Hm; simpl;
    split; try done; by intros [??].
Qed.

(** ** The run as a whole *)

Section Run.

#[local] Arguments extract_papers : simpl never.
#[local] Arguments output_csv : simpl never.
#[local] Arguments findall : simpl never.

Lemma filter_record_lines (f : event → bool) (articles : list Element) :
  (∀ d, f (Debug d) = false) →
  List.filter f
    ((fun a => Debug (ExtractedRecord (extract_article a))) <$> articles) = [].
Proof.
  intros Hf. induction articles as [|a articles IH]; simpl; [done|].
  by rewrite Hf.
Qed.


Lemma writerows_None (reply : nat → option exn) (i : nat)
    (papers written out : list Paper) :
  writerows reply i papers written = (out, None) → out = written ++ papers.
Proof.
  revert i written.
  induction papers as [|p papers IH]; intros i written; simpl.
  - intros [= <-]. by rewrite app_nil_r.
  - destruct (reply i); [done|]. intros ->%IH. by rewrite <- app_assoc.
Qed.

Lemma output_csv_destination (w : World) (papers : list Paper)
    (file : option string) :
  output_csv w papers file
  = match destination file with
    | None => write_report w None papers
    | Some f =>
        match open_reply w f with
        | Some e => raise e
        | None =>
            write_report w (Some f) papers;; emit (Saved (length papers) f)
        end
    end.
Proof.
  unfold output_csv, destination.
  destruct file as [f|]; [|done]. by destruct (nonempty f).
Qed.

(** The three ways [output_csv] can go: nothing written, a report cut
    short by a failing write, the whole report. *)
Lemma output_csv_cases (w : World) (papers : list Paper)
    (file : option string) :
  (∃ e, output_csv w papers file = ([], Raises e))
  ∨ (∃ written e,
       output_csv w papers file
       = ([CsvRows (destination file) written], Raises e))
  ∨ output_csv w papers file
    = (CsvRows (destination file) papers
       :: match destination file with
          | Some f => [Saved (length papers) f]
          | None => []
          end, Returns tt).
Proof.
  rewrite output_csv_destination.
  assert (Hreport : ∀ dest,
    (∃ e, write_report w dest papers = ([], Raises e))
    ∨ (∃ written e,
         write_report w dest papers = ([CsvRows dest written], Raises e))
    ∨ write_report w dest papers = ([CsvRows dest papers], Returns tt)).
  { intros dest. unfold write_report.
    destruct (write_reply w dest 0) as [e|]; [left; by exists e|].
    destruct (writerows (write_reply w dest) 1 papers [])
      as [written [e|]] eqn:Hrows.
    - right; left. by exists written, e.
    - right; right. by apply writerows_None in Hrows as ->. }
  destruct (destination file) as [f|].
  - destruct (open_reply w f) as [e|]; [left; by exists e|].
    destruct (Hreport (Some f)) as [[e ->]|[(written & e & ->)| ->]].
    + left. by exists e.
    + right; left. by exists written, e.
    + by right; right.
  - destruct (Hreport None) as [[e ->]|[(written & e & ->)| ->]].
    + left. by exists e.
    + right; left. by exists written, e.
    + by right; right.
Qed.


Lemma output_csv_open_fails (w : World) (papers : list Paper)
    (file : option string) (f : string) (e : exn) :
  destination file = Some f → open_reply w f = Some e →
  output_csv w papers file = ([], Raises e).
Proof. intros Hf Ho. by rewrite output_csv_destination, Hf, Ho. Qed.


(** Every run of [main], path by path. *)
Lemma main_trace (w : World) (debug : bool) (file : option string) :
  main w {| arg_debug := debug; arg_file := file |}
  = match esearch_reply w with
    | Raises e =>
        ((if debug then [Debug CallingEsearch] else [])
         ++ [Stderr (diagnostic e)], Returns tt)
    | Returns ([], total) =>
        ((if debug
          then [Debug CallingEsearch; Debug (EsearchResult total [])]
          else []) ++ [Stderr "No papers found for the query."], Returns tt)
    | Returns (pmids, total) =>
        let called :=
          if debug
          then [Debug CallingEsearch; Debug (EsearchResult total pmids);
                TotalHits total pmids; Debug (CallingEfetch pmids)]
          else [] in
        match efetch_reply w pmids with
        | Raises e => (called ++ [Stderr (diagnostic e)], Returns tt)
        | Returns (NotWellFormed msg) =>
            (called ++ [Stderr (diagnostic (ParseError msg))], Returns tt)
        | Returns (WellFormed root) =>
            let articles := findall (Desc "PubmedArticle") root in
            let extracted :=
              if debug
              then (fun a => Debug (ExtractedRecord (extract_article a)))
                   <$> articles
              else [] in
            let report := output_csv w (extract_article <$> articles) file in
            (called ++ extracted ++ report.1
             ++ match report.2 with
                | Raises e => [Stderr (diagnostic e)]
                | Returns _ => []
                end, Returns tt)
        end
    end.
Proof.
  unfold main, main_body, esearch, efetch, debug_print. cbn [arg_debug arg_file].
  destruct (esearch_reply w) as [e|[[|id ids] total]].
  - destruct debug, e; reflexivity.
  - destruct debug; reflexivity.
  - destruct (efetch_reply w (id :: ids)) as [e|[msg|root]] eqn:Hfetch.
    + destruct debug, e; cbn; rewrite Hfetch; reflexivity.
    + destruct debug; cbn; rewrite Hfetch; reflexivity.
    + assert (Hpapers : ∀ dbg, extract_papers (WellFormed root) dbg
        = ((if dbg
            then (fun a => Debug (ExtractedRecord (extract_article a)))
                 <$> findall (Desc "PubmedArticle") root
            else []),
           Returns (extract_article <$> findall (Desc "PubmedArticle") root))).
      { intros dbg. unfold extract_papers. by rewrite extract_loop_run. }
      cbn zeta.
      destruct (output_csv w
                  (extract_article <$> findall (Desc "PubmedArticle") root)
                  file) as [out [e|u]] eqn:Hout; [|destruct u];
        destruct debug; cbn; rewrite Hfetch; cbn; rewrite Hpapers; cbn;
        rewrite Hout; cbn; try destruct e; cbn;
        rewrite <- ?app_assoc, ?app_nil_r; reflexivity.
Qed.

End Run.

(** X14. The debug flag changes nothing but the debug lines: with and
    without it a run returns the same way, and taking the debug lines out of
    the run with the flag gives the run without it, which has none. *)
Theorem debug_is_transparent (w : World) (file : option string) :
  let quiet := main w {| arg_debug := false; arg_file := file |} in
  let loud := main w {| arg_debug := true; arg_file := file |} in
  loud.2 = quiet.2
  ∧ List.filter (fun ev => negb (is_debug ev)) loud.1 = quiet.1
  ∧ List.filter is_debug quiet.1 = [].
Proof.
  cbn zeta. rewrite !main_trace.
  destruct (esearch_reply w) as [e|[[|id ids] total]]; [done..|].
  destruct (efetch_reply w (id :: ids)) as [e|[msg|root]]; [done..|].
  cbn zeta.
  destruct (output_csv_cases w
              (extract_article <$> findall (Desc "PubmedArticle") root) file)
    as [[e ->]|[(written & e & ->)| ->]];
    cbn; rewrite List.filter_app, filter_record_lines by done;
    by destruct (destination file).
Qed.


(** X16. Whatever fails (the search, the fetch, the parse of the reply, the
    opening of the output file), the run returns normally, its last line is
    the handler's diagnostic for that exception, and no report is written. *)
Theorem failing_run (w : World) (args : Args) (e : exn) :
  esearch_reply w = Raises e
  ∨ (∃ id ids total,
       esearch_reply w = Returns (id :: ids, total)
       ∧ (efetch_reply w (id :: ids) = Raises e
          ∨ (∃ msg, efetch_reply w (id :: ids) = Returns (NotWellFormed msg)
                    ∧ e = ParseError msg)
          ∨ (∃ root f, efetch_reply w (id :: ids) = Returns (WellFormed root)
                       ∧ destination (arg_file args) = Some f
                       ∧ open_reply w f = Some e))) →
  (main w args).2 = Returns tt
  ∧ last (main w args).1 = Some (Stderr (diagnostic e))
  ∧ List.filter is_report (main w args).1 = [].
Proof.
  destruct args as [debug file]. rewrite main_trace. cbn [arg_file].
  intros [->|(id & ids & total & -> &
    [->|[(msg & -> & ->)|(root & f & -> & Hdest & Hopen)]])];
    cbn zeta; rewrite ?(output_csv_open_fails _ _ _ _ _ Hdest Hopen);
    destruct debug; cbn [fst snd];
    rewrite ?last_app, ?List.filter_app, ?filter_record_lines by done; done.
Qed.

Lemma failing_run_witness :
  last (main {| esearch_reply := Raises (HTTPError "429 Too Many Requests");
                efetch_reply := fun _ => Returns (NotWellFormed "");
                open_reply := fun _ => None;
                write_reply := fun _ _ => None |}
             {| arg_debug := true; arg_file := None |}).1
  = Some (Stderr "HTTP error during PubMed access: 429 Too Many Requests").
Proof.
  apply (failing_run
           {| esearch_reply := Raises (HTTPError "429 Too Many Requests");
              efetch_reply := fun _ => Returns (NotWellFormed "");
              open_reply := fun _ => None;
              write_reply := fun _ _ => None |}
           {| arg_debug := true; arg_file := None |}
           (HTTPError "429 Too Many Requests")).
  left. reflexivity.
Defined.


